(** * QSpectra: Hamiltonians of electronic and vibronic systems

    A shallow embedding of [qspectra/hamiltonian.py]: the abstract
    [Hamiltonian], [ElectronicHamiltonian], [thermal_state] and
    [VibronicHamiltonian], over a small model of the numpy arrays the
    module computes with.  Scalars are exact reals; exceptions are values
    of an error monad. *)

From Stdlib Require Import String Ascii List Arith Lia Bool Reals Lra.
Import ListNotations.

Set Implicit Arguments.

(* ================================================================== *)
(** * Exceptions and fallible computations *)
(* ================================================================== *)

(** Python exceptions the module can raise or let through.  The only
    exception class the module defines is [HamiltonianError]; the others
    are built-in classes, and [CollaboratorError] stands for any exception
    raised inside a function of [operator_tools], [polarization] or scipy. *)
Inductive exn : Type :=
| HamiltonianError (msg : string)
| AttributeError (msg : string)
| TypeError
| ValueError
| IndexError
| CollaboratorError (who : string).

(** The class of an exception, as [type(e)] is in Python. *)
Inductive exn_class : Type :=
| cHamiltonianError | cAttributeError | cTypeError | cValueError
| cIndexError | cCollaboratorError.

Definition class_of (e : exn) : exn_class :=
  match e with
  | HamiltonianError _ => cHamiltonianError
  | AttributeError _ => cAttributeError
  | TypeError => cTypeError
  | ValueError => cValueError
  | IndexError => cIndexError
  | CollaboratorError _ => cCollaboratorError
  end.

Inductive result (A : Type) : Type :=
| Ok (a : A)
| Raise (e : exn).

Arguments Ok {A} a.
Arguments Raise {A} e.

Definition bind {A B : Type} (m : result A) (k : A -> result B) : result B :=
  match m with
  | Ok a => k a
  | Raise e => Raise e
  end.

Notation "x <- m ;; k" := (bind m (fun x => k))
  (at level 61, m at next level, right associativity).

(** A call into a collaborator: [None] is an exception raised there. *)
Definition lift {A : Type} (who : string) (o : option A) : result A :=
  match o with
  | Some a => Ok a
  | None => Raise (CollaboratorError who)
  end.

(** [[f(x) for x in l]]: the first exception aborts the comprehension. *)
Fixpoint mapM {A B : Type} (f : A -> result B) (l : list A) : result (list B) :=
  match l with
  | [] => Ok []
  | x :: l' => y <- f x ;; ys <- mapM f l' ;; Ok (y :: ys)
  end.


(* ================================================================== *)
(** * Shapes and multi-indices (row-major order) *)
(* ================================================================== *)

Definition size (s : list nat) : nat := fold_right Nat.mul 1 s.

(** Position of the multi-index [idx] in the flat data of shape [s]. *)
Fixpoint ravel (s idx : list nat) : nat :=
  match s, idx with
  | _ :: s', i :: idx' => i * size s' + ravel s' idx'
  | _, _ => 0
  end.

Fixpoint in_bounds (s idx : list nat) : bool :=
  match s, idx with
  | [], [] => true
  | n :: s', i :: idx' => (i <? n) && in_bounds s' idx'
  | _, _ => false
  end.

(** All multi-indices of shape [s], in row-major order. *)
Fixpoint all_indices (s : list nat) : list (list nat) :=
  match s with
  | [] => [[]]
  | n :: s' => flat_map (fun i => map (cons i) (all_indices s')) (seq 0 n)
  end.

Fixpoint map2 {A B C : Type} (f : A -> B -> C) (l1 : list A) (l2 : list B) : list C :=
  match l1, l2 with
  | a :: l1', b :: l2' => f a b :: map2 f l1' l2'
  | _, _ => []
  end.

Fixpoint list_eqb (l1 l2 : list nat) : bool :=
  match l1, l2 with
  | [], [] => true
  | a :: l1', b :: l2' => (a =? b) && list_eqb l1' l2'
  | _, _ => false
  end.

(* ================================================================== *)
(** * Arrays *)
(* ================================================================== *)

(** Element types carry the value an array of zeros holds. *)
Class Zero (T : Type) := zero : T.

#[export] Instance Zero_R : Zero R := 0%R.

(** A numpy [ndarray]: its shape and its elements in row-major order. *)
Record ndarray (T : Type) : Type := mk_ndarray {
  shape : list nat;
  data : list T
}.

Arguments mk_ndarray {T} shape data.
Arguments shape {T} n.
Arguments data {T} n.

Definition ndim {T} (a : ndarray T) : nat := length (shape a).

(** The invariant numpy maintains between shape and buffer. *)
Definition wf {T} (a : ndarray T) : Prop := length (data a) = size (shape a).

Section Arrays.
Context {T : Type} `{ZT : Zero T}.

(** The array of shape [s] whose element at [idx] is [f idx]. *)
Definition tabulate (s : list nat) (f : list nat -> T) : ndarray T :=
  mk_ndarray s (map f (all_indices s)).

(** [a[idx]] for an index known to be in range. *)
Definition item (a : ndarray T) (idx : list nat) : T :=
  nth (ravel (shape a) idx) (data a) zero.

(** [a[idx]]: out of range raises [IndexError]. *)
Definition getitem (a : ndarray T) (idx : list nat) : result T :=
  if in_bounds (shape a) idx then Ok (item a idx) else Raise IndexError.

(** [a[idx] = v] on a copy of [a]. *)
Definition setitem (a : ndarray T) (idx : list nat) (v : T) : result (ndarray T) :=
  if in_bounds (shape a) idx
  then Ok (tabulate (shape a)
             (fun j => if list_eqb j idx then v else item a j))
  else Raise IndexError.

(** [len(a)]: a 0-d array has no length. *)
Definition np_len (a : ndarray T) : result nat :=
  match shape a with
  | [] => Raise TypeError
  | n :: _ => Ok n
  end.



Definition np_zeros (s : list nat) : ndarray T :=
  tabulate s (fun _ => zero).

(** [np.asanyarray(l)] for a Python list [l] of arrays: the arrays are
    stacked along a new first axis; the empty list gives shape [(0,)];
    arrays of different shapes are rejected. *)
Definition np_asanyarray_list (l : list (ndarray T)) : result (ndarray T) :=
  match l with
  | [] => Ok (mk_ndarray [0] [])
  | a :: _ =>
      if forallb (fun b => list_eqb (shape b) (shape a)) l
      then Ok (mk_ndarray (length l :: shape a) (concat (map data l)))
      else Raise ValueError
  end.
End Arrays.

(* ================================================================== *)
(** * Scalars: exact reals and complex numbers *)
(* ================================================================== *)

Record C : Type := mkC { Re : R; Im : R }.

#[export] Instance Zero_C : Zero C := mkC 0 0.

Definition C1 : C := mkC 1 0.
Definition RtoC (x : R) : C := mkC x 0.
Definition Cadd (z w : C) : C := mkC (Re z + Re w) (Im z + Im w).
Definition Cmul (z w : C) : C :=
  mkC (Re z * Re w - Im z * Im w) (Re z * Im w + Im z * Re w).
Definition Cconj (z : C) : C := mkC (Re z) (- Im z).
(** Product of a complex and a real number, as numpy forms it after
    promoting the real operand. *)
Definition Cscale (z : C) (x : R) : C := Cmul z (RtoC x).

(** Sum of [f 0], ..., [f (n-1)]. *)
Fixpoint Rsum (n : nat) (f : nat -> R) : R :=
  match n with
  | O => 0
  | S n' => Rsum n' f + f n'
  end.

Fixpoint Csum (n : nat) (f : nat -> C) : C :=
  match n with
  | O => zero
  | S n' => Cadd (Csum n' f) (f n')
  end.

Definition sum_list (l : list R) : R := fold_right Rplus 0%R l.

(* ================================================================== *)
(** * The numpy operations the module uses *)
(* ================================================================== *)

(** ** Broadcasting of element-wise operations

    Shapes are aligned at their last axis; two axes are compatible when
    they are equal or one of them is 1. *)
Fixpoint broadcast_rev (r1 r2 : list nat) : option (list nat) :=
  match r1, r2 with
  | [], r => Some r
  | r, [] => Some r
  | n :: r1', m :: r2' =>
      match broadcast_rev r1' r2' with
      | None => None
      | Some r =>
          if n =? m then Some (n :: r)
          else if n =? 1 then Some (m :: r)
          else if m =? 1 then Some (n :: r)
          else None
      end
  end.

Definition broadcast_shapes (s1 s2 : list nat) : option (list nat) :=
  option_map (@rev nat) (broadcast_rev (rev s1) (rev s2)).

(** The index into an operand of shape [s] that the index [idx] of the
    broadcast result reads. *)
Definition bidx (s idx : list nat) : list nat :=
  map2 (fun n i => if n =? 1 then 0 else i) s (skipn (length idx - length s) idx).

Section Elementwise.
Context {T : Type} `{ZT : Zero T}.

(** [a op b] for arrays. *)
Definition np_binop (f : T -> T -> T) (a b : ndarray T) : result (ndarray T) :=
  match broadcast_shapes (shape a) (shape b) with
  | Some s =>
      Ok (tabulate s (fun idx => f (item a (bidx (shape a) idx))
                                   (item b (bidx (shape b) idx))))
  | None => Raise ValueError
  end.

(** [a op= b]: the result must have the shape of [a]. *)
Definition np_ibinop (f : T -> T -> T) (a b : ndarray T) : result (ndarray T) :=
  match broadcast_shapes (shape a) (shape b) with
  | Some s => if list_eqb s (shape a) then np_binop f a b else Raise ValueError
  | None => Raise ValueError
  end.

(** Element-wise unary operations and operations with a Python scalar. *)
Definition np_map (f : T -> T) (a : ndarray T) : ndarray T :=
  mk_ndarray (shape a) (map f (data a)).
End Elementwise.

Definition np_add := np_binop Rplus.
Definition np_sub := np_binop Rminus.
Definition np_iadd := np_ibinop Rplus.
Definition np_neg := np_map Ropp.
(** [c * a] *)
Definition np_scale (c : R) := np_map (Rmult c).
(** [a / c], for [c] other than 0 *)
Definition np_div (a : ndarray R) (c : R) := np_map (fun x => (x / c)%R) a.

Definition delta (i j : nat) : R := if i =? j then 1%R else 0%R.

(** First and second component of a multi-index. *)
Definition ix0 (idx : list nat) : nat := nth 0 idx 0.
Definition ix1 (idx : list nat) : nat := nth 1 idx 0.

(** [np.identity(n)], [np.eye(n)] *)
Definition np_identity (n : nat) : ndarray R :=
  tabulate [n; n] (fun idx => delta (ix0 idx) (ix1 idx)).
Definition np_eye := np_identity.

(** [np.arange(n)] *)
Definition np_arange (n : nat) : ndarray R :=
  mk_ndarray [n] (map INR (seq 0 n)).

(** [np.prod] of an array of integers. *)
Definition np_prod (l : list nat) : nat := fold_right Nat.mul 1 l.

(** [np.diag]: a 1-d array becomes the diagonal of a square matrix, of a
    2-d array the diagonal is extracted. *)
Definition np_diag (v : ndarray R) : result (ndarray R) :=
  match shape v with
  | [n] => Ok (tabulate [n; n]
                 (fun idx => Rmult (delta (ix0 idx) (ix1 idx)) (item v [ix0 idx])))
  | [r; c] => Ok (tabulate [Nat.min r c] (fun idx => item v [ix0 idx; ix0 idx]))
  | _ => Raise ValueError
  end.

(** [np.trace] of a matrix, the sum of its diagonal; an array with fewer
    than two axes is rejected.  The module takes the trace of the square
    matrix [expm] returns. *)
Definition np_trace (a : ndarray R) : result R :=
  match shape a with
  | [r; c] => Ok (Rsum (Nat.min r c) (fun i => item a [i; i]))
  | _ => Raise ValueError
  end.

(** [a.max()] and [a.min()] over all elements; an empty array has no
    maximum and no minimum. *)
Definition np_max (a : ndarray R) : result R :=
  match data a with
  | [] => Raise ValueError
  | x :: l => Ok (fold_left Rmax l x)
  end.

Definition np_min (a : ndarray R) : result R :=
  match data a with
  | [] => Raise ValueError
  | x :: l => Ok (fold_left Rmin l x)
  end.

(** [np.mean] over all elements of a non-empty array (of an empty one
    numpy returns nan). *)
Definition np_mean (a : ndarray R) : R :=
  (sum_list (data a) / INR (length (data a)))%R.

(** ** Kronecker product

    [np.kron(a, b)]: the shape with fewer axes is prepended with ones;
    the result has shape [a.shape * b.shape] axis by axis and holds
    [a[i / sb] * b[i mod sb]] at the multi-index [i]. *)
Definition pad_shape (d : nat) (s : list nat) : list nat :=
  repeat 1 (d - length s) ++ s.

Definition np_kron {A B D : Type} `{ZA : Zero A} `{ZB : Zero B}
    (mul : A -> B -> D) (a : ndarray A) (b : ndarray B) : ndarray D :=
  let d := Nat.max (ndim a) (ndim b) in
  let sa := pad_shape d (shape a) in
  let sb := pad_shape d (shape b) in
  tabulate (map2 Nat.mul sa sb)
    (fun idx => mul (nth (ravel sa (map2 Nat.div idx sb)) (data a) zero)
                    (nth (ravel sb (map2 Nat.modulo idx sb)) (data b) zero)).

(** What Python passes where numpy expects an array: an array, or a list
    of arrays that numpy converts with [asanyarray]. *)
Inductive array_like : Type :=
| Arr (a : ndarray R)
| PyList (l : list (ndarray R)).

Definition np_asanyarray (x : array_like) : result (ndarray R) :=
  match x with
  | Arr a => Ok a
  | PyList l => np_asanyarray_list l
  end.

(** ['g' in subspace] *)
Definition str_in (needle hay : string) : bool :=
  match index 0 needle hay with
  | Some _ => true
  | None => false
  end.

Fixpoint foldM {A B : Type} (f : A -> B -> result A) (l : list B) (a : A) : result A :=
  match l with
  | [] => Ok a
  | x :: l' => a' <- f a x ;; foldM f l' a'
  end.

(** [enumerate(l)] *)
Definition enumerate {A : Type} (l : list A) : list (nat * A) :=
  combine (seq 0 (length l)) l.

(* ================================================================== *)
(** * Collaborators *)
(* ================================================================== *)

(** The bath model: only its [temperature] attribute is read. *)
Record Bath : Type := mk_Bath { temperature : R }.

(** Functions the module imports and whose code is not part of it: the
    subspace algebra of [operator_tools], the polarization helper and the
    two scipy routines.  [None] stands for an exception raised inside. *)
Class Collaborators : Type := {
  operator_extend : ndarray R -> string -> option (ndarray R);
  transition_operator : nat -> nat -> string -> string -> option (ndarray R);
  polarization_vector : string -> option (ndarray R);
  vib_create : nat -> option (ndarray R);
  vib_annihilate : nat -> option (ndarray R);
  einsum_nij_nk_k : ndarray R -> ndarray R -> ndarray R -> option (ndarray R);
  eigh : ndarray R -> option (ndarray R * ndarray R);
  expm : ndarray R -> option (ndarray R)
}.

(** Modelled from the spec: [unit_vec(index, length)] of [operator_tools]
    (not in the sources) is the standard basis vector; there is none for an
    index outside the length. *)
Definition unit_vec (index length : nat) : option (ndarray R) :=
  if index <? length
  then Some (tabulate [length] (fun idx => delta (ix0 idx) index))
  else None.

(** Modelled from the spec: [tensor(...)] of [operator_tools] (not in the
    sources) is the sequential Kronecker product of its arguments, folded
    from the left with [np.kron]. *)
Definition tensor (args : list array_like) : result (ndarray R) :=
  match args with
  | [] => Raise (CollaboratorError "tensor")
  | x :: rest =>
      a <- np_asanyarray x ;;
      foldM (fun acc y => b <- np_asanyarray y ;; Ok (np_kron Rmult acc b)) rest a
  end.

(** Modelled from the spec: [extend_vib_operator(levels, mode_index,
    operator)] of [operator_tools] (not in the sources) embeds a
    single-mode operator into the joint vibrational space, by a Kronecker
    product with the identity on the modes before and after it. *)
Definition extend_vib_operator (levels : list nat) (m : nat) (op : ndarray R)
  : result (ndarray R) :=
  tensor [Arr (np_eye (np_prod (firstn m levels)));
          Arr op;
          Arr (np_eye (np_prod (skipn (S m) levels)))].

(* ================================================================== *)
(** * class Hamiltonian *)
(* ================================================================== *)

Module Hamiltonian.
Section Methods.
Context `{collab : Collaborators}.

(** The abstract method [H] and the attribute [energy_offset] of the
    instance the derived queries are called on. *)
Variable self_H : string -> result (ndarray R).
Variable self_energy_offset : R.

Definition n_states (subspace : string) : result nat :=
  M <- self_H subspace ;; np_len M.

Definition eig (subspace : string) : result (ndarray R * ndarray R) :=
  M <- self_H subspace ;; lift "eigh" (eigh M).

Definition E (subspace : string) : result (ndarray R) :=
  p <- eig subspace ;; Ok (fst p).

Definition U (subspace : string) : result (ndarray R) :=
  p <- eig subspace ;; Ok (snd p).

Definition mean_excitation_freq : result R :=
  e <- E "e" ;; Ok (np_mean e + self_energy_offset)%R.

(** The attribute [energy_spread_extra] of the instance. *)
Variable self_energy_spread_extra : R.

Definition freq_step : result R :=
  e1 <- E "gef" ;;
  hi <- np_max e1 ;;
  e2 <- E "gef" ;;
  lo <- np_min e2 ;;
  let freq_span := (hi - lo)%R in
  Ok (2 * (freq_span + self_energy_spread_extra))%R.

(** [1.0 / self.freq_step], for a [freq_step] other than 0. *)
Definition time_step : result R :=
  f <- freq_step ;; Ok (1 / f)%R.
End Methods.
End Hamiltonian.

(* ================================================================== *)
(** * class ElectronicHamiltonian *)
(* ================================================================== *)

Module ElectronicHamiltonian.

Record t : Type := mk {
  H_1exc : ndarray R;
  energy_offset : R;
  bath : option Bath;
  dipoles : option (ndarray R);
  energy_spread_extra : R;
  n_vibrational_states : nat
}.

(** [__init__] *)
Definition init (H_1exc : ndarray R) (energy_offset : R) (bath : option Bath)
    (dipoles : option (ndarray R)) (energy_spread_extra : R) : t :=
  mk H_1exc energy_offset bath dipoles energy_spread_extra 1.

Section Methods.
Context `{collab : Collaborators}.
Variable self : t.

Definition n_sites : result nat := np_len (H_1exc self).

Definition H (subspace : string) : result (ndarray R) :=
  lift "operator_extend" (operator_extend (H_1exc self) subspace).

Definition n_states := Hamiltonian.n_states H.
Definition eig := Hamiltonian.eig H.
Definition E := Hamiltonian.E H.
Definition U := Hamiltonian.U H.
Definition mean_excitation_freq :=
  Hamiltonian.mean_excitation_freq H (energy_offset self).
Definition freq_step := Hamiltonian.freq_step H (energy_spread_extra self).
Definition time_step := Hamiltonian.time_step H (energy_spread_extra self).

Definition ground_state (subspace : string) : result (ndarray C) :=
  N <- n_states subspace ;;
  let state := np_zeros [N; N] in
  if str_in "g" subspace then setitem state [0; 0] C1 else Ok state.

Definition in_rotating_frame (rw_freq : option R) : result t :=
  rw <- match rw_freq with
        | None => mean_excitation_freq
        | Some f => Ok f
        end ;;
  n <- np_len (H_1exc self) ;;
  H1 <- np_sub (H_1exc self)
               (np_scale (rw - energy_offset self) (np_identity n)) ;;
  Ok (init H1 rw (bath self) (dipoles self) (energy_spread_extra self)).

Definition dipole_operator (subspace polarization transitions : string)
  : result (ndarray R) :=
  match dipoles self with
  | None => Raise (HamiltonianError "transition dipole moments undefined")
  | Some d =>
      n <- n_sites ;;
      trans_ops <- mapM (fun k =>
                     n' <- n_sites ;;
                     lift "transition_operator"
                          (transition_operator k n' subspace transitions))
                   (seq 0 n) ;;
      p <- lift "polarization_vector" (polarization_vector polarization) ;;
      ops <- np_asanyarray_list trans_ops ;;
      lift "einsum" (einsum_nij_nk_k ops d p)
  end.

Definition number_operator (site : nat) (subspace : string) : result (ndarray R) :=
  n <- n_sites ;;
  v <- lift "unit_vec" (unit_vec site n) ;;
  d <- np_diag v ;;
  lift "operator_extend" (operator_extend d subspace).

Definition system_bath_couplings (subspace : string) : result (list (ndarray R)) :=
  match bath self with
  | None => Raise (HamiltonianError "bath undefined")
  | Some _ =>
      n <- n_sites ;;
      mapM (fun k => number_operator k subspace) (seq 0 n)
  end.
End Methods.

End ElectronicHamiltonian.

(* ================================================================== *)
(** * thermal_state *)
(* ================================================================== *)

Definition thermal_state `{collab : Collaborators} (hamiltonian_matrix : ndarray R)
    (temperature : R) : result (ndarray R) :=
  rho <- lift "expm" (expm (np_div (np_neg hamiltonian_matrix) temperature)) ;;
  tr <- np_trace rho ;;
  Ok (np_div rho tr).

(* ================================================================== *)
(** * class VibronicHamiltonian *)
(* ================================================================== *)

Module VibronicHamiltonian.

Record t : Type := mk {
  electronic : ElectronicHamiltonian.t;
  energy_offset : R;
  energy_spread_extra : R;
  bath : option Bath;
  n_sites : nat;
  n_vibrational_levels : list nat;
  vib_energies : list R;
  elec_vib_couplings : ndarray R
}.

(** [__init__]: reading [electronic.n_sites] takes [len(H_1exc)]. *)
Definition init (electronic : ElectronicHamiltonian.t)
    (n_vibrational_levels : list nat) (vib_energies : list R)
    (elec_vib_couplings : ndarray R) : result t :=
  n <- ElectronicHamiltonian.n_sites electronic ;;
  Ok (mk electronic
         (ElectronicHamiltonian.energy_offset electronic)
         (ElectronicHamiltonian.energy_spread_extra electronic)
         (ElectronicHamiltonian.bath electronic)
         n n_vibrational_levels vib_energies elec_vib_couplings).

Section Methods.
Context `{collab : Collaborators}.
Variable self : t.

Definition n_vibrational_states : nat := np_prod (n_vibrational_levels self).

Definition H_vibrational : result (ndarray R) :=
  H0 <- np_diag (np_zeros [n_vibrational_states]) ;;
  foldM (fun H_vib '(m, (num_levels, vib_energy)) =>
           vib_operator <- np_diag (np_arange num_levels) ;;
           X <- extend_vib_operator (n_vibrational_levels self) m vib_operator ;;
           np_iadd H_vib (np_scale vib_energy X))
        (enumerate (combine (n_vibrational_levels self) (vib_energies self)))
        H0.

Definition H_electronic_vibrational (subspace : string) : result (ndarray R) :=
  N <- ElectronicHamiltonian.n_states (electronic self) subspace ;;
  H0 <- np_diag (np_zeros [N * n_vibrational_states]) ;;
  n <- ElectronicHamiltonian.n_sites (electronic self) ;;
  foldM (fun H_el_vib i =>
           el_operator <- ElectronicHamiltonian.number_operator
                            (electronic self) i subspace ;;
           foldM (fun H_acc '(m, num_levels) =>
                    a <- lift "vib_annihilate" (vib_annihilate num_levels) ;;
                    c <- lift "vib_create" (vib_create num_levels) ;;
                    vib_operator <- np_add a c ;;
                    c_im <- getitem (elec_vib_couplings self) [i; m] ;;
                    X <- extend_vib_operator (n_vibrational_levels self) m
                                             vib_operator ;;
                    Tn <- tensor [Arr el_operator; Arr X] ;;
                    np_iadd H_acc (np_scale c_im Tn))
                 (enumerate (n_vibrational_levels self)) H_el_vib)
        (seq 0 n) H0.

Definition el_to_sys_operator (el_operator : array_like) : result (ndarray R) :=
  tensor [el_operator; Arr (np_eye n_vibrational_states)].

Definition vib_to_sys_operator (vib_operator : ndarray R) (subspace : string)
  : result (ndarray R) :=
  N <- ElectronicHamiltonian.n_states (electronic self) subspace ;;
  tensor [Arr (np_eye N); Arr vib_operator].

Definition H (subspace : string) : result (ndarray R) :=
  H_el <- ElectronicHamiltonian.H (electronic self) subspace ;;
  a <- el_to_sys_operator (Arr H_el) ;;
  H_vib <- H_vibrational ;;
  b <- vib_to_sys_operator H_vib subspace ;;
  ab <- np_add a b ;;
  c <- H_electronic_vibrational subspace ;;
  np_add ab c.

Definition n_states := Hamiltonian.n_states H.
Definition eig := Hamiltonian.eig H.
Definition E := Hamiltonian.E H.
Definition U := Hamiltonian.U H.
Definition mean_excitation_freq :=
  Hamiltonian.mean_excitation_freq H (energy_offset self).
Definition freq_step := Hamiltonian.freq_step H (energy_spread_extra self).
Definition time_step := Hamiltonian.time_step H (energy_spread_extra self).

Definition ground_state (subspace : string) : result (ndarray C) :=
  g <- ElectronicHamiltonian.ground_state (electronic self) subspace ;;
  H_vib <- H_vibrational ;;
  T <- match bath self with
       | None => Raise (AttributeError
                          "'NoneType' object has no attribute 'temperature'")
       | Some b => Ok (temperature b)
       end ;;
  rho <- thermal_state H_vib T ;;
  Ok (np_kron Cscale g rho).

Definition in_rotating_frame (rw_freq : option R) : result t :=
  e <- ElectronicHamiltonian.in_rotating_frame (electronic self) rw_freq ;;
  init e (n_vibrational_levels self) (vib_energies self)
       (elec_vib_couplings self).

Definition dipole_operator (subspace polarization transitions : string)
  : result (ndarray R) :=
  d <- ElectronicHamiltonian.dipole_operator (electronic self)
         subspace polarization transitions ;;
  el_to_sys_operator (Arr d).

Definition system_bath_couplings (subspace : string) : result (ndarray R) :=
  l <- ElectronicHamiltonian.system_bath_couplings (electronic self) subspace ;;
  el_to_sys_operator (PyList l).
End Methods.

End VibronicHamiltonian.

(** Short names for the two classes. *)
Module EH := ElectronicHamiltonian.
Module VH := VibronicHamiltonian.

(** A computation that raises no [HamiltonianError]. *)
Definition clean {A : Type} (m : result A) : Prop :=
  forall e, m = Raise e -> class_of e <> cHamiltonianError.

(* ================================================================== *)
(** * Memoized queries *)
(* ================================================================== *)

(** Modelled from the spec: the decorator [imemoize] of [utils] (not in
    the sources) is a per-instance, per-argument-tuple cache: the first
    call for a key computes and stores the result; later calls with the
    same key on the same instance return the stored result without
    recomputation. *)
Section Imemoize.
Variables K V : Type.
Variable K_eq_dec : forall x y : K, {x = y} + {x <> y}.

(** The cache of one instance. *)
Definition cache : Type := list (K * V).

Fixpoint cache_lookup (k : K) (c : cache) : option V :=
  match c with
  | [] => None
  | (k', v) :: c' => if K_eq_dec k k' then Some v else cache_lookup k c'
  end.

(** One call of the decorated method [body] with argument tuple [k]:
    the value returned, the cache afterwards, and how many times the
    body was executed. *)
Definition imemoize (body : K -> V) (k : K) (c : cache) : V * cache * nat :=
  match cache_lookup k c with
  | Some v => (v, c, 0)
  | None => let v := body k in (v, (k, v) :: c, 1)
  end.

(** Successive calls on one instance: the values returned, the final
    cache, and the keys the body was executed on. *)
Fixpoint calls (body : K -> V) (ks : list K) (c : cache)
  : list V * cache * list K :=
  match ks with
  | [] => ([], c, [])
  | k :: ks' =>
      let '(v, c1, n) := imemoize body k c in
      let '(vs, c2, log) := calls body ks' c1 in
      (v :: vs, c2, repeat k n ++ log)
  end.

(** Every stored value is the value of the body at its key. *)
Definition cache_sound (body : K -> V) (c : cache) : Prop :=
  forall k v, cache_lookup k c = Some v -> v = body k.
End Imemoize.

(** The memoized queries of the two classes and their argument tuples. *)
Inductive query : Type :=
| q_H (subspace : string)
| q_eig (subspace : string)
| q_ground_state (subspace : string)
| q_in_rotating_frame (rw_freq : option R).

Definition query_eq_dec (x y : query) : {x = y} + {x <> y}.
Proof.
  decide equality; try apply string_dec.
  decide equality. apply Req_dec_T.
Defined.

Inductive instance : Type :=
| Electronic (h : ElectronicHamiltonian.t)
| Vibronic (h : VibronicHamiltonian.t).

Inductive answer : Type :=
| a_H (r : result (ndarray R))
| a_eig (r : result (ndarray R * ndarray R))
| a_ground_state (r : result (ndarray C))
| a_in_rotating_frame (r : result instance).

(** The bodies under the decorator. *)
Definition unmemoized `{collab : Collaborators} (self : instance) (q : query) : answer :=
  match self, q with
  | Electronic h, q_H s => a_H (ElectronicHamiltonian.H h s)
  | Electronic h, q_eig s => a_eig (ElectronicHamiltonian.eig h s)
  | Electronic h, q_ground_state s =>
      a_ground_state (ElectronicHamiltonian.ground_state h s)
  | Electronic h, q_in_rotating_frame rw =>
      a_in_rotating_frame
        (h' <- ElectronicHamiltonian.in_rotating_frame h rw ;; Ok (Electronic h'))
  | Vibronic h, q_H s => a_H (VibronicHamiltonian.H h s)
  | Vibronic h, q_eig s => a_eig (VibronicHamiltonian.eig h s)
  | Vibronic h, q_ground_state s =>
      a_ground_state (VibronicHamiltonian.ground_state h s)
  | Vibronic h, q_in_rotating_frame rw =>
      a_in_rotating_frame
        (h' <- VibronicHamiltonian.in_rotating_frame h rw ;; Ok (Vibronic h'))
  end.

(** A Hamiltonian object: the instance and the cache it carries. *)
Record object : Type := mk_object {
  self_of : instance;
  memo : cache query answer
}.

Definition new_object (self : instance) : object := mk_object self [].

(** One memoized query on an object: the answer, the object afterwards
    and the number of executions of the body. *)
Definition call `{collab : Collaborators} (o : object) (q : query)
  : answer * object * nat :=
  let '(v, c, n) := imemoize query_eq_dec (unmemoized (self_of o)) q (memo o) in
  (v, mk_object (self_of o) c, n).

(** Successive memoized queries on one object. *)
Definition call_all `{collab : Collaborators} (o : object) (qs : list query)
  : list answer * object * list query :=
  let '(vs, c, log) := calls query_eq_dec (unmemoized (self_of o)) qs (memo o) in
  (vs, mk_object (self_of o) c, log).

(* ================================================================== *)
(** * Properties of matrices *)
(* ================================================================== *)

(** A real matrix is Hermitian when it is symmetric. *)
Definition symmetric (a : ndarray R) (n : nat) : Prop :=
  shape a = [n; n] /\
  forall i j, i < n -> j < n -> item a [i; j] = item a [j; i].

Definition diagonal (a : ndarray R) (n : nat) : Prop :=
  shape a = [n; n] /\
  forall i j, i < n -> j < n -> i <> j -> item a [i; j] = 0%R.

(** [E], [U] is an exact eigendecomposition of the [n] by [n] matrix [M]:
    [M U = U diag(E)] with [U] orthogonal. *)
Definition eigendecomposition (M E U : ndarray R) (n : nat) : Prop :=
  shape E = [n] /\ wf E /\ shape U = [n; n] /\
  (forall i k, i < n -> k < n ->
     Rsum n (fun j => item M [i; j] * item U [j; k])%R
     = (item E [k] * item U [i; k])%R) /\
  (forall k l, k < n -> l < n ->
     Rsum n (fun i => item U [i; k] * item U [i; l])%R = delta k l) /\
  (forall i j, i < n -> j < n ->
     Rsum n (fun k => item U [i; k] * item U [j; k])%R = delta i j).

(** What [scipy.linalg.eigh] returns on [M] in exact arithmetic when [M]
    is Hermitian. *)
Definition eigh_exact_on `{collab : Collaborators} (M : ndarray R) (n : nat) : Prop :=
  symmetric M n ->
  exists E U, eigh M = Some (E, U) /\ eigendecomposition M E U n.

(** The contract of [operator_extend] on the singly-excited manifold:
    [H('e')] is the 1-excitation matrix itself. *)
Definition extend_e_unchanged `{collab : Collaborators} : Prop :=
  forall M, operator_extend M "e" = Some M.

(** The contract of the two ladder operators of a mode with [l] levels:
    both are [l] by [l] matrices and the creation operator is the
    transpose of the annihilation operator. *)
Definition ladder_pair `{collab : Collaborators} (l : nat) : Prop :=
  exists a c,
    vib_annihilate l = Some a /\ vib_create l = Some c /\
    shape a = [l; l] /\ shape c = [l; l] /\
    forall i j, i < l -> j < l -> item a [i; j] = item c [j; i].

(** The exponential of a diagonal matrix. *)
Definition exp_diagonal (D : ndarray R) (n : nat) : ndarray R :=
  tabulate [n; n]
    (fun idx => Rmult (delta (ix0 idx) (ix1 idx)) (exp (item D [ix0 idx; ix0 idx]))).

(** What [scipy.linalg.expm] returns on diagonal matrices in exact
    arithmetic. *)
Definition expm_exact_on_diagonal `{collab : Collaborators} : Prop :=
  forall D n, wf D -> diagonal D n -> expm D = Some (exp_diagonal D n).

Definition hermitian (a : ndarray C) (n : nat) : Prop :=
  forall i j, i < n -> j < n -> item a [i; j] = Cconj (item a [j; i]).

(** [x^dagger a x] *)
Definition quadratic_form (a : ndarray C) (n : nat) (x : nat -> C) : C :=
  Csum n (fun i => Csum n (fun j => Cmul (Cmul (Cconj (x i)) (item a [i; j])) (x j))).

Definition positive_semidefinite (a : ndarray C) (n : nat) : Prop :=
  forall x, Im (quadratic_form a n x) = 0%R /\ (0 <= Re (quadratic_form a n x))%R.

Definition trace_C (a : ndarray C) (n : nat) : C :=
  Csum n (fun i => item a [i; i]).

(** A density operator: a Hermitian, positive semi-definite square matrix
    of trace 1. *)
Definition density_operator (a : ndarray C) : Prop :=
  exists n, shape a = [n; n] /\ wf a /\
            hermitian a n /\ positive_semidefinite a n /\ trace_C a n = C1.

(* ================================================================== *)
(** * Concrete collaborators and instances for the examples *)
(* ================================================================== *)

(** The subspace extension on the labels ['e'] (the 1-excitation matrix
    itself) and ['g'] (the single zero-energy ground state). *)
Definition sample_operator_extend (M : ndarray R) (subspace : string)
  : option (ndarray R) :=
  if String.eqb subspace "e" then Some M
  else if String.eqb subspace "g" then Some (np_zeros [1; 1])
  else None.

(** The unit vectors of the three axes. *)
Definition sample_polarization_vector (label : string) : option (ndarray R) :=
  if String.eqb label "x" then Some (mk_ndarray [3] [1; 0; 0]%R)
  else if String.eqb label "y" then Some (mk_ndarray [3] [0; 1; 0]%R)
  else if String.eqb label "z" then Some (mk_ndarray [3] [0; 0; 1]%R)
  else None.

(** Ladder operators of the truncated harmonic oscillator. *)
Definition sample_vib_annihilate (n : nat) : option (ndarray R) :=
  Some (tabulate [n; n]
          (fun idx => Rmult (delta (S (ix0 idx)) (ix1 idx)) (sqrt (INR (ix1 idx))))).

Definition sample_vib_create (n : nat) : option (ndarray R) :=
  Some (tabulate [n; n]
          (fun idx => Rmult (delta (ix0 idx) (S (ix1 idx))) (sqrt (INR (ix0 idx))))).

(** The contraction ['nij,nk,k->ij']. *)
Definition sample_einsum (ops dip pol : ndarray R) : option (ndarray R) :=
  match shape ops, shape dip, shape pol with
  | [n; i; j], [n'; k], [k'] =>
      if (n =? n') && (k =? k')
      then Some (tabulate [i; j]
                   (fun idx => Rsum n (fun x => Rsum k (fun y =>
                      item ops [x; ix0 idx; ix1 idx] * item dip [x; y] * item pol [y])%R)))
      else None
  | _, _, _ => None
  end.

(** An eigensolver for diagonal matrices: the diagonal and the identity. *)
Definition sample_eigh (M : ndarray R) : option (ndarray R * ndarray R) :=
  match shape M with
  | [n; m] =>
      if n =? m
      then Some (tabulate [n] (fun idx => item M [ix0 idx; ix0 idx]), np_identity n)
      else None
  | _ => None
  end.

(** The exponential of a diagonal matrix. *)
Definition sample_expm (M : ndarray R) : option (ndarray R) :=
  match shape M with
  | [n; m] => if n =? m then Some (exp_diagonal M n) else None
  | _ => None
  end.

Definition sample_collaborators : Collaborators := {|
  operator_extend := sample_operator_extend;
  transition_operator := fun _ _ _ _ => None;
  polarization_vector := sample_polarization_vector;
  vib_create := sample_vib_create;
  vib_annihilate := sample_vib_annihilate;
  einsum_nij_nk_k := sample_einsum;
  eigh := sample_eigh;
  expm := sample_expm
|}.

(** The two-site system [[0, 1], [1, 0]], without bath and dipoles. *)
Definition sample_H_1exc : ndarray R := mk_ndarray [2; 2] [0; 1; 1; 0]%R.

Definition sample_electronic : ElectronicHamiltonian.t :=
  ElectronicHamiltonian.init sample_H_1exc 0 None None 100.

(** The same system with a bath of temperature 1. *)
Definition sample_electronic_bath : ElectronicHamiltonian.t :=
  ElectronicHamiltonian.init sample_H_1exc 0 (Some (mk_Bath 1)) None 100.

(** A system with diagonal 1-excitation matrix. *)
Definition sample_diagonal_electronic : ElectronicHamiltonian.t :=
  ElectronicHamiltonian.init (mk_ndarray [2; 2] [1; 0; 0; 3]%R) 2
                             (Some (mk_Bath 1)) None 100.

(** One vibrational mode with two levels on the two-site system. *)
Definition sample_vibronic (e : ElectronicHamiltonian.t) : VibronicHamiltonian.t :=
  VibronicHamiltonian.mk e
    (ElectronicHamiltonian.energy_offset e)
    (ElectronicHamiltonian.energy_spread_extra e)
    (ElectronicHamiltonian.bath e)
    2 [2] [1%R] (mk_ndarray [2; 1] [1; 1]%R).

(** The transition operator of one site between the ground state and its
    singly-excited state, in the subspace of the ground state followed by
    the [n] singly-excited states. *)
Definition sample_transition_operator (site n : nat) (subspace transitions : string)
  : option (ndarray R) :=
  if String.eqb subspace "ge"
  then Some (tabulate [S n; S n]
               (fun idx => Rplus (Rmult (delta (ix0 idx) 0) (delta (ix1 idx) (S site)))
                                 (Rmult (delta (ix0 idx) (S site)) (delta (ix1 idx) 0))))
  else None.

(** The collaborators of the examples, with this transition operator. *)
Definition sample_collaborators_dipole : Collaborators := {|
  operator_extend := sample_operator_extend;
  transition_operator := sample_transition_operator;
  polarization_vector := sample_polarization_vector;
  vib_create := sample_vib_create;
  vib_annihilate := sample_vib_annihilate;
  einsum_nij_nk_k := sample_einsum;
  eigh := sample_eigh;
  expm := sample_expm
|}.

(** The two-site system with dipole moments along x and y. *)
Definition sample_electronic_dipoles : ElectronicHamiltonian.t :=
  ElectronicHamiltonian.init sample_H_1exc 0 None
    (Some (mk_ndarray [2; 3] [1; 0; 0; 0; 1; 0]%R)) 100.

(** The two-site system wrapped without any vibrational mode. *)
Definition sample_vibronic_no_modes : VibronicHamiltonian.t :=
  VibronicHamiltonian.mk sample_electronic_bath 0 100 (Some (mk_Bath 1))
    2 [] [] (mk_ndarray [2; 0] []).




Unset Implicit Arguments.

(* ================================================================== *)
(** * Facts about multi-indices *)
(* ================================================================== *)

Section FlatMapChunks.
Variable A : Type.
Variable g : nat -> list A.
Variable sz : nat.

Lemma flat_map_seq_length (a n : nat) :
  (forall j, a <= j < a + n -> length (g j) = sz) ->
  length (flat_map g (seq a n)) = n * sz.
Proof.
  revert a. induction n as [|n IH]; intros a Hg; simpl; [reflexivity|].
  rewrite length_app, IH, Hg; [reflexivity | lia |].
  intros j Hj. apply Hg. lia.
Qed.

Lemma nth_flat_map_seq (a n i r : nat) (d : A) :
  (forall j, a <= j < a + n -> length (g j) = sz) ->
  i < n -> r < sz ->
  nth (i * sz + r) (flat_map g (seq a n)) d = nth r (g (a + i)) d.
Proof.
  revert a i. induction n as [|n IH]; intros a i Hg Hi Hr; [lia|].
  simpl. destruct i as [|i].
  - simpl. rewrite app_nth1 by (rewrite Hg; lia).
    now rewrite Nat.add_0_r.
  - rewrite app_nth2 by (rewrite Hg; lia).
    rewrite Hg by lia.
    replace (S i * sz + r - sz) with (i * sz + r) by lia.
    rewrite IH; [| intros; apply Hg; lia | lia | assumption].
    f_equal. f_equal. lia.
Qed.

End FlatMapChunks.

Lemma all_indices_length (s : list nat) : length (all_indices s) = size s.
Proof.
  induction s as [|n s IH]; simpl; [reflexivity|].
  rewrite (@flat_map_seq_length _ _ (size s)); [reflexivity|].
  intros j _. now rewrite length_map.
Qed.

Lemma in_bounds_length (s idx : list nat) :
  in_bounds s idx = true -> length idx = length s.
Proof.
  revert idx. induction s as [|n s IH]; intros [|i idx]; simpl; try discriminate; auto.
  intros Hb. apply andb_true_iff in Hb. f_equal. now apply IH.
Qed.

Lemma all_indices_in_bounds (s idx : list nat) :
  In idx (all_indices s) -> in_bounds s idx = true.
Proof.
  revert idx. induction s as [|n s IH]; intros idx Hin; simpl in *.
  - destruct Hin as [<-|[]]. reflexivity.
  - apply in_flat_map in Hin. destruct Hin as (i & Hi & Hin).
    apply in_map_iff in Hin. destruct Hin as (idx' & <- & Hin').
    apply in_seq in Hi. simpl.
    apply andb_true_iff. split; [apply Nat.ltb_lt; lia | now apply IH].
Qed.

Lemma ravel_lt (s idx : list nat) :
  in_bounds s idx = true -> ravel s idx < size s.
Proof.
  revert idx. induction s as [|n s IH]; intros [|i idx]; simpl; try discriminate.
  - lia.
  - intros Hb. apply andb_true_iff in Hb. destruct Hb as [Hi Hb].
    apply Nat.ltb_lt in Hi. specialize (IH _ Hb). nia.
Qed.

Lemma nth_all_indices (s idx d : list nat) :
  in_bounds s idx = true -> nth (ravel s idx) (all_indices s) d = idx.
Proof.
  revert idx. induction s as [|n s IH]; intros [|i idx]; simpl; try discriminate.
  - reflexivity.
  - intros Hb. apply andb_true_iff in Hb. destruct Hb as [Hi Hb].
    apply Nat.ltb_lt in Hi.
    rewrite (@nth_flat_map_seq _ _ (size s)).
    + simpl. rewrite (nth_indep _ d (i :: d)).
      * rewrite map_nth. now rewrite IH.
      * rewrite length_map, all_indices_length. now apply ravel_lt.
    + intros j _. now rewrite length_map, all_indices_length.
    + assumption.
    + now apply ravel_lt.
Qed.

Lemma ravel_nth_all_indices (s : list nat) (k : nat) (d : list nat) :
  k < size s -> ravel s (nth k (all_indices s) d) = k.
Proof.
  revert k. induction s as [|n s IH]; intros k Hk; simpl in *.
  - destruct k; [reflexivity | lia].
  - assert (Hsz : size s <> 0) by (intros E; rewrite E in Hk; lia).
    rewrite (Nat.div_mod_eq k (size s)) at 1.
    rewrite (Nat.mul_comm (size s)).
    assert (Hq : k / size s < n) by (apply Nat.Div0.div_lt_upper_bound; lia).
    assert (Hr : k mod size s < size s) by now apply Nat.mod_upper_bound.
    rewrite (@nth_flat_map_seq _ _ (size s));
      [| intros j _; now rewrite length_map, all_indices_length | assumption | assumption].
    simpl. rewrite (nth_indep _ d (k / size s :: d))
      by now rewrite length_map, all_indices_length.
    rewrite map_nth. simpl. rewrite IH by assumption.
    rewrite (Nat.div_mod_eq k (size s)) at 3. lia.
Qed.

(* ================================================================== *)
(** * Facts about arrays *)
(* ================================================================== *)

Section ArrayFacts.
Context {T : Type} `{ZT : Zero T}.

Lemma wf_tabulate (s : list nat) (f : list nat -> T) : wf (tabulate s f).
Proof. unfold wf, tabulate; simpl. now rewrite length_map, all_indices_length. Qed.

Lemma tabulate_ext (s : list nat) (f g : list nat -> T) :
  (forall idx, in_bounds s idx = true -> f idx = g idx) ->
  tabulate s f = tabulate s g.
Proof.
  intros Hfg. unfold tabulate. f_equal.
  apply map_ext_in. intros idx Hin. apply Hfg. now apply all_indices_in_bounds.
Qed.

Lemma item_tabulate (s : list nat) (f : list nat -> T) (idx : list nat) :
  in_bounds s idx = true -> item (tabulate s f) idx = f idx.
Proof.
  intros Hb. unfold item, tabulate; simpl.
  rewrite (nth_indep _ zero (f idx)).
  - rewrite map_nth. now rewrite nth_all_indices.
  - rewrite length_map, all_indices_length. now apply ravel_lt.
Qed.

(** An array is determined by its shape and its elements. *)
Lemma tabulate_item (a : ndarray T) :
  wf a -> tabulate (shape a) (item a) = a.
Proof.
  destruct a as [s l]. unfold wf, tabulate, item; simpl. intros Hwf. f_equal.
  apply (nth_ext _ _ zero zero).
  - now rewrite length_map, all_indices_length.
  - intros k Hk. rewrite length_map, all_indices_length in Hk.
    rewrite (nth_indep _ zero (nth (ravel s []) l zero))
      by now rewrite length_map, all_indices_length.
    rewrite (map_nth (fun idx => nth (ravel s idx) l zero)).
    now rewrite ravel_nth_all_indices.
Qed.

Lemma ndarray_ext (a b : ndarray T) :
  wf a -> wf b -> shape a = shape b ->
  (forall idx, in_bounds (shape a) idx = true -> item a idx = item b idx) ->
  a = b.
Proof.
  intros Ha Hb Hs Hitem.
  rewrite <- (tabulate_item a Ha), <- (tabulate_item b Hb), <- Hs.
  now apply tabulate_ext.
Qed.

End ArrayFacts.

(* ================================================================== *)
(** * Which exceptions a computation can raise *)
(* ================================================================== *)

Lemma clean_Ok {A : Type} (a : A) : clean (Ok a).
Proof. intros e He. discriminate. Qed.

Lemma clean_bind {A B : Type} (m : result A) (k : A -> result B) :
  clean m -> (forall a, m = Ok a -> clean (k a)) -> clean (x <- m ;; k x).
Proof.
  intros Hm Hk e. destruct m as [a|e']; simpl.
  - now apply Hk.
  - intros [= <-]. now apply Hm.
Qed.

Lemma clean_lift {A : Type} (who : string) (o : option A) : clean (lift who o).
Proof. intros e. destruct o; simpl; [discriminate|]. now intros [= <-]. Qed.

Lemma clean_mapM {A B : Type} (f : A -> result B) (l : list A) :
  (forall x, clean (f x)) -> clean (mapM f l).
Proof.
  intros Hf. induction l as [|x l IH]; simpl.
  - apply clean_Ok.
  - apply clean_bind; [apply Hf|]. intros y _.
    apply clean_bind; [apply IH|]. intros ys _. apply clean_Ok.
Qed.

Lemma clean_foldM {A B : Type} (f : A -> B -> result A) (l : list B) (a : A) :
  (forall a' x, clean (f a' x)) -> clean (foldM f l a).
Proof.
  intros Hf. revert a. induction l as [|x l IH]; intros a; simpl.
  - apply clean_Ok.
  - apply clean_bind; [apply Hf|]. intros a' _. apply IH.
Qed.

Lemma clean_np_len {T : Type} (a : ndarray T) : clean (np_len a).
Proof. intros e. unfold np_len. destruct (shape a); [|discriminate]. now intros [= <-]. Qed.

Lemma clean_getitem {T : Type} `{ZT : Zero T} (a : ndarray T) idx : clean (getitem a idx).
Proof. intros e. unfold getitem. destruct in_bounds; [discriminate|]. now intros [= <-]. Qed.

Lemma clean_setitem {T : Type} `{ZT : Zero T} (a : ndarray T) idx v :
  clean (setitem a idx v).
Proof. intros e. unfold setitem. destruct in_bounds; [discriminate|]. now intros [= <-]. Qed.

Lemma clean_np_binop {T : Type} `{ZT : Zero T} (f : T -> T -> T) a b :
  clean (np_binop f a b).
Proof.
  intros e. unfold np_binop. destruct broadcast_shapes; [discriminate|]. now intros [= <-].
Qed.

Lemma clean_np_ibinop {T : Type} `{ZT : Zero T} (f : T -> T -> T) a b :
  clean (np_ibinop f a b).
Proof.
  intros e. unfold np_ibinop. destruct broadcast_shapes; [|now intros [= <-]].
  destruct list_eqb; [apply clean_np_binop | now intros [= <-]].
Qed.

Lemma clean_np_diag v : clean (np_diag v).
Proof.
  intros e. unfold np_diag.
  destruct (shape v) as [|? [|? [|? ?]]]; try discriminate; now intros [= <-].
Qed.

Lemma clean_np_trace a : clean (np_trace a).
Proof.
  intros e. unfold np_trace.
  destruct (shape a) as [|? [|? [|? ?]]]; try discriminate; now intros [= <-].
Qed.

Lemma clean_np_asanyarray_list {T : Type} (l : list (ndarray T)) :
  clean (np_asanyarray_list l).
Proof.
  intros e. unfold np_asanyarray_list. destruct l; [discriminate|].
  destruct forallb; [discriminate|]. now intros [= <-].
Qed.

Lemma clean_np_asanyarray x : clean (np_asanyarray x).
Proof. destruct x; simpl; [apply clean_Ok | apply clean_np_asanyarray_list]. Qed.

Lemma clean_tensor args : clean (tensor args).
Proof.
  unfold tensor. destruct args as [|x rest].
  - intros e [= <-]. discriminate.
  - apply clean_bind; [apply clean_np_asanyarray|]. intros a _.
    apply clean_foldM. intros acc y.
    apply clean_bind; [apply clean_np_asanyarray|]. intros b _. apply clean_Ok.
Qed.

Lemma clean_extend_vib_operator levels m op : clean (extend_vib_operator levels m op).
Proof. apply clean_tensor. Qed.

Lemma clean_np_add a b : clean (np_add a b).
Proof. apply clean_np_binop. Qed.

Lemma clean_np_sub a b : clean (np_sub a b).
Proof. apply clean_np_binop. Qed.

Lemma clean_np_iadd a b : clean (np_iadd a b).
Proof. apply clean_np_ibinop. Qed.

Create HintDb clean.

#[local] Hint Resolve clean_np_add clean_np_sub clean_np_iadd : clean.

#[local] Hint Resolve clean_Ok clean_lift clean_np_len clean_getitem clean_setitem
  clean_np_binop clean_np_ibinop clean_np_diag clean_np_trace
  clean_np_asanyarray_list clean_np_asanyarray clean_tensor
  clean_extend_vib_operator : clean.

Ltac clean_step :=
  first [ apply clean_bind; [| intros ? ?]
        | apply clean_mapM; intros ?
        | apply clean_foldM; intros ? ?
        | solve [auto with clean] ].

Section CleanMethods.
Context `{collab : Collaborators}.

Lemma clean_El_H h s : clean (ElectronicHamiltonian.H h s).
Proof. apply clean_lift. Qed.

Lemma clean_El_n_states h s : clean (ElectronicHamiltonian.n_states h s).
Proof.
  unfold ElectronicHamiltonian.n_states, Hamiltonian.n_states.
  repeat clean_step. apply clean_El_H.
Qed.

Lemma clean_El_ground_state h s : clean (ElectronicHamiltonian.ground_state h s).
Proof.
  unfold ElectronicHamiltonian.ground_state.
  apply clean_bind; [apply clean_El_n_states|]. intros N _.
  destruct (str_in "g" s); auto with clean.
Qed.


Lemma clean_H_vibrational vh : clean (VibronicHamiltonian.H_vibrational vh).
Proof.
  unfold VibronicHamiltonian.H_vibrational.
  apply clean_bind; [auto with clean|]. intros H0 _.
  apply clean_foldM. intros acc [m [num_levels vib_energy]].
  repeat clean_step.
Qed.


Lemma clean_thermal_state M T : clean (thermal_state M T).
Proof. unfold thermal_state. repeat clean_step. Qed.
End CleanMethods.

(* ================================================================== *)
(** * Element-wise operations on arrays of one shape *)
(* ================================================================== *)

Lemma broadcast_rev_same (r : list nat) : broadcast_rev r r = Some r.
Proof.
  induction r as [|n r IH]; simpl; [reflexivity|].
  now rewrite IH, Nat.eqb_refl.
Qed.

Lemma broadcast_shapes_same (s : list nat) : broadcast_shapes s s = Some s.
Proof.
  unfold broadcast_shapes. rewrite broadcast_rev_same. simpl.
  now rewrite rev_involutive.
Qed.

Lemma list_eqb_refl (l : list nat) : list_eqb l l = true.
Proof. induction l as [|a l IH]; simpl; [reflexivity|]. now rewrite Nat.eqb_refl. Qed.

Lemma list_eqb_eq (l1 l2 : list nat) : list_eqb l1 l2 = true -> l1 = l2.
Proof.
  revert l2. induction l1 as [|a l1 IH]; intros [|b l2]; simpl; try discriminate; auto.
  intros Hb. apply andb_true_iff in Hb. destruct Hb as [Hab Hl].
  apply Nat.eqb_eq in Hab. f_equal; auto.
Qed.

Lemma bidx_in_bounds (s idx : list nat) :
  in_bounds s idx = true -> bidx s idx = idx.
Proof.
  intros Hb. unfold bidx. rewrite (in_bounds_length _ _ Hb), Nat.sub_diag. simpl.
  revert idx Hb. induction s as [|n s IH]; intros [|i idx]; simpl; try discriminate; auto.
  intros Hb. apply andb_true_iff in Hb. destruct Hb as [Hi Hb].
  apply Nat.ltb_lt in Hi. rewrite (IH _ Hb). f_equal.
  destruct (Nat.eqb_spec n 1); lia.
Qed.

Lemma in_bounds_2d (n m : nat) (idx : list nat) :
  in_bounds [n; m] idx = true ->
  idx = [ix0 idx; ix1 idx] /\ ix0 idx < n /\ ix1 idx < m.
Proof.
  destruct idx as [|i [|j [|k idx]]]; simpl; try discriminate.
  - now rewrite andb_false_r.
  - rewrite andb_true_r. intros Hb. apply andb_true_iff in Hb.
    destruct Hb as [Hi Hj]. apply Nat.ltb_lt in Hi, Hj. now repeat split.
  - now rewrite !andb_false_r.
Qed.

Lemma in_bounds_2d_intro (n m i j : nat) :
  i < n -> j < m -> in_bounds [n; m] [i; j] = true.
Proof.
  intros Hi Hj. simpl. apply Nat.ltb_lt in Hi, Hj. now rewrite Hi, Hj.
Qed.

Lemma in_bounds_1d (n : nat) (idx : list nat) :
  in_bounds [n] idx = true -> idx = [ix0 idx] /\ ix0 idx < n.
Proof.
  destruct idx as [|i [|j idx]]; simpl; try discriminate.
  - rewrite andb_true_r. intros Hi. apply Nat.ltb_lt in Hi. now split.
  - now rewrite andb_false_r.
Qed.

Section ElementwiseFacts.
Context {T : Type} `{ZT : Zero T}.

Lemma np_binop_same_shape (f : T -> T -> T) (a b : ndarray T) :
  shape a = shape b ->
  np_binop f a b = Ok (tabulate (shape a) (fun idx => f (item a idx) (item b idx))).
Proof.
  intros Hs. unfold np_binop. rewrite <- Hs, broadcast_shapes_same. f_equal.
  apply tabulate_ext. intros idx Hb. now rewrite (bidx_in_bounds _ _ Hb).
Qed.

Lemma np_ibinop_same_shape (f : T -> T -> T) (a b : ndarray T) :
  shape a = shape b ->
  np_ibinop f a b = Ok (tabulate (shape a) (fun idx => f (item a idx) (item b idx))).
Proof.
  intros Hs. unfold np_ibinop. rewrite <- Hs, broadcast_shapes_same, list_eqb_refl.
  now apply np_binop_same_shape.
Qed.

Lemma wf_np_map (f : T -> T) (a : ndarray T) : wf a -> wf (np_map f a).
Proof. unfold wf, np_map; simpl. now rewrite length_map. Qed.

Lemma item_np_map (f : T -> T) (a : ndarray T) (idx : list nat) :
  wf a -> in_bounds (shape a) idx = true ->
  item (np_map f a) idx = f (item a idx).
Proof.
  intros Hwf Hb. unfold item, np_map; simpl.
  rewrite (nth_indep _ zero (f zero)).
  - now rewrite map_nth.
  - rewrite length_map, Hwf. now apply ravel_lt.
Qed.
End ElementwiseFacts.

Lemma item_np_identity (n i j : nat) :
  i < n -> j < n -> item (np_identity n) [i; j] = delta i j.
Proof.
  intros Hi Hj. unfold np_identity.
  now rewrite item_tabulate by now apply in_bounds_2d_intro.
Qed.

Lemma delta_refl (i : nat) : delta i i = 1%R.
Proof. unfold delta. now rewrite Nat.eqb_refl. Qed.

Lemma delta_neq (i j : nat) : i <> j -> delta i j = 0%R.
Proof. unfold delta. intros Hij. now destruct (Nat.eqb_spec i j). Qed.

Lemma delta_sym (i j : nat) : delta i j = delta j i.
Proof. unfold delta. now rewrite Nat.eqb_sym. Qed.

(** [H - c * identity], entry by entry. *)
Lemma np_sub_scaled_identity (M : ndarray R) (n : nat) (c : R) :
  shape M = [n; n] ->
  exists M',
    np_sub M (np_scale c (np_identity n)) = Ok M' /\
    shape M' = [n; n] /\ wf M' /\
    forall i j, i < n -> j < n ->
      item M' [i; j] = (item M [i; j] - c * delta i j)%R.
Proof.
  intros Hs. unfold np_sub. rewrite np_binop_same_shape by now rewrite Hs.
  eexists. split; [reflexivity|]. rewrite Hs. split; [reflexivity|].
  split; [apply wf_tabulate|].
  intros i j Hi Hj.
  rewrite item_tabulate by now apply in_bounds_2d_intro.
  unfold np_scale. rewrite item_np_map.
  - now rewrite item_np_identity.
  - apply wf_tabulate.
  - now apply in_bounds_2d_intro.
Qed.

(* ================================================================== *)
(** * Finite sums *)
(* ================================================================== *)

Lemma Rsum_ext (n : nat) (f g : nat -> R) :
  (forall i, i < n -> f i = g i) -> Rsum n f = Rsum n g.
Proof.
  induction n as [|n IH]; intros Hfg; simpl; [reflexivity|].
  rewrite IH, Hfg; auto.
Qed.

Lemma Rsum_zero (n : nat) (f : nat -> R) :
  (forall i, i < n -> f i = 0%R) -> Rsum n f = 0%R.
Proof.
  induction n as [|n IH]; intros Hf; simpl; [reflexivity|].
  rewrite IH, Hf by auto. ring.
Qed.

Lemma Rsum_plus (n : nat) (f g : nat -> R) :
  Rsum n (fun i => f i + g i)%R = (Rsum n f + Rsum n g)%R.
Proof. induction n as [|n IH]; simpl; [ring|]. rewrite IH. ring. Qed.

Lemma Rsum_scale (n : nat) (c : R) (f : nat -> R) :
  Rsum n (fun i => c * f i)%R = (c * Rsum n f)%R.
Proof. induction n as [|n IH]; simpl; [ring|]. rewrite IH. ring. Qed.


Lemma Rsum_minus_const (n : nat) (c : R) (f : nat -> R) :
  Rsum n (fun i => f i - c)%R = (Rsum n f - INR n * c)%R.
Proof.
  induction n as [|n IH]; [simpl; ring|].
  rewrite S_INR. simpl. rewrite IH. ring.
Qed.

Lemma Rsum_swap (n m : nat) (f : nat -> nat -> R) :
  Rsum n (fun i => Rsum m (fun j => f i j))
  = Rsum m (fun j => Rsum n (fun i => f i j)).
Proof.
  induction n as [|n IH]; simpl.
  - symmetry. now apply Rsum_zero.
  - rewrite IH. now rewrite <- Rsum_plus.
Qed.

Lemma Rsum_nonneg (n : nat) (f : nat -> R) :
  (forall i, i < n -> (0 <= f i)%R) -> (0 <= Rsum n f)%R.
Proof.
  induction n as [|n IH]; intros Hf; simpl; [lra|].
  specialize (IH (fun i Hi => Hf i (Nat.lt_lt_succ_r _ _ Hi))).
  specialize (Hf n (Nat.lt_succ_diag_r n)). lra.
Qed.

Lemma Rsum_pos (n : nat) (f : nat -> R) :
  0 < n -> (forall i, i < n -> (0 < f i)%R) -> (0 < Rsum n f)%R.
Proof.
  intros Hn Hf. destruct n as [|n]; [lia|]. simpl.
  assert (0 <= Rsum n f)%R
    by (apply Rsum_nonneg; intros i Hi; apply Rlt_le, Hf; lia).
  specialize (Hf n (Nat.lt_succ_diag_r n)). lra.
Qed.

(** Only the term at [i] survives a sum against [delta i]. *)
Lemma Rsum_delta_l (n i : nat) (g : nat -> R) :
  i < n -> Rsum n (fun j => delta i j * g j)%R = g i.
Proof.
  induction n as [|n IH]; intros Hi; [lia|]. simpl.
  destruct (Nat.eq_dec i n) as [->|Hne].
  - rewrite delta_refl, Rsum_zero; [ring|].
    intros j Hj. rewrite delta_neq by lia. ring.
  - rewrite IH by lia. rewrite delta_neq by assumption. ring.
Qed.

Lemma Rsum_delta_r (n i : nat) (g : nat -> R) :
  i < n -> Rsum n (fun j => g j * delta j i)%R = g i.
Proof.
  intros Hi. rewrite <- (Rsum_delta_l n i g Hi).
  apply Rsum_ext. intros j _. rewrite (delta_sym j i). ring.
Qed.

Lemma Rsum_shift (n : nat) (f : nat -> R) :
  Rsum (S n) f = (f 0%nat + Rsum n (fun k => f (S k)))%R.
Proof.
  induction n as [|n IH]; [simpl; ring|].
  change (Rsum (S (S n)) f) with (Rsum (S n) f + f (S n))%R.
  rewrite IH. simpl. ring.
Qed.

Lemma sum_list_Rsum (l : list R) :
  sum_list l = Rsum (length l) (fun k => nth k l 0%R).
Proof.
  induction l as [|x l IH]; [reflexivity|].
  simpl length. rewrite Rsum_shift. simpl. now rewrite IH.
Qed.

Lemma item_1d {T : Type} `{ZT : Zero T} (a : ndarray T) (n k : nat) :
  shape a = [n] -> item a [k] = nth k (data a) zero.
Proof.
  intros Hs. unfold item. rewrite Hs. simpl. f_equal. lia.
Qed.

Lemma np_mean_1d (E : ndarray R) (n : nat) :
  shape E = [n] -> wf E ->
  np_mean E = (Rsum n (fun k => item E [k]) / INR n)%R.
Proof.
  intros Hs Hwf. unfold np_mean.
  assert (Hlen : length (data E) = n) by (rewrite Hwf, Hs; simpl; lia).
  rewrite sum_list_Rsum, Hlen. f_equal.
  apply Rsum_ext. intros k _. symmetry. now apply item_1d with n.
Qed.

(* ================================================================== *)
(** * Eigenvalues and the trace *)
(* ================================================================== *)

(** The eigenvalues of an exact eigendecomposition sum to the trace. *)
Lemma eigenvalues_sum_trace (M E U : ndarray R) (n : nat) :
  eigendecomposition M E U n ->
  Rsum n (fun k => item E [k]) = Rsum n (fun i => item M [i; i]).
Proof.
  intros (_ & _ & _ & Heig & Hcol & Hrow).
  transitivity (Rsum n (fun k => Rsum n (fun i =>
                  Rsum n (fun j => item U [i; k] * item M [i; j] * item U [j; k])))%R).
  - apply Rsum_ext. intros k Hk.
    transitivity (Rsum n (fun i => item U [i; k] * (item E [k] * item U [i; k]))%R).
    + transitivity (item E [k] * Rsum n (fun i => item U [i; k] * item U [i; k]))%R.
      * rewrite Hcol, delta_refl by assumption. ring.
      * rewrite <- Rsum_scale. apply Rsum_ext. intros i _. ring.
    + apply Rsum_ext. intros i Hi. rewrite <- Heig by assumption.
      rewrite <- Rsum_scale. apply Rsum_ext. intros j _. ring.
  - rewrite Rsum_swap. apply Rsum_ext. intros i Hi.
    rewrite Rsum_swap.
    transitivity (Rsum n (fun j => item M [i; j] * delta i j)%R).
    + apply Rsum_ext. intros j Hj. rewrite <- (Hrow i j Hi Hj).
      rewrite <- Rsum_scale. apply Rsum_ext. intros k _. ring.
    + transitivity (Rsum n (fun j => delta i j * item M [i; j])%R).
      * apply Rsum_ext. intros j _. ring.
      * now apply Rsum_delta_l.
Qed.

Lemma np_mean_eigenvalues (M E U : ndarray R) (n : nat) :
  eigendecomposition M E U n ->
  np_mean E = (Rsum n (fun i => item M [i; i]) / INR n)%R.
Proof.
  intros Hdec. pose proof Hdec as (Hs & Hwf & _).
  rewrite (np_mean_1d E n Hs Hwf). f_equal.
  now apply eigenvalues_sum_trace with U.
Qed.

(** The eigensolver for diagonal matrices is exact on them. *)
Lemma sample_eigh_exact (M : ndarray R) (n : nat) :
  diagonal M n -> eigh_exact_on (collab := sample_collaborators) M n.
Proof.
  intros (Hs & Hdiag) _. simpl. unfold sample_eigh. rewrite Hs, Nat.eqb_refl.
  do 2 eexists. split; [reflexivity|].
  split; [reflexivity|]. split; [apply wf_tabulate|]. split; [reflexivity|].
  split; [|split].
  - intros i k Hi Hk.
    rewrite (item_tabulate [n] _ [k]) by (simpl; apply Nat.ltb_lt in Hk; now rewrite Hk).
    rewrite item_np_identity by assumption.
    transitivity (Rsum n (fun j => item M [i; j] * delta j k)%R).
    + apply Rsum_ext. intros j Hj. now rewrite item_np_identity.
    + rewrite Rsum_delta_r by assumption. unfold ix0. simpl.
      destruct (Nat.eq_dec i k) as [->|Hne].
      * rewrite delta_refl. ring.
      * rewrite Hdiag, delta_neq by assumption. ring.
  - intros k l Hk Hl.
    transitivity (Rsum n (fun i => delta i l * delta i k)%R).
    + apply Rsum_ext. intros i Hi. rewrite !item_np_identity by assumption. ring.
    + transitivity (Rsum n (fun i => delta l i * delta i k)%R).
      * apply Rsum_ext. intros i _. now rewrite (delta_sym i l).
      * rewrite Rsum_delta_l by assumption. apply delta_sym.
  - intros i j Hi Hj.
    transitivity (Rsum n (fun k => delta i k * delta j k)%R).
    + apply Rsum_ext. intros k Hk. now rewrite !item_np_identity.
    + rewrite Rsum_delta_l by assumption. apply delta_sym.
Qed.

(* ================================================================== *)
(** * The cache of a memoized method *)
(* ================================================================== *)

Section ImemoizeFacts.
Variables K V : Type.
Variable K_eq_dec : forall x y : K, {x = y} + {x <> y}.
Variable body : K -> V.

Lemma cache_sound_nil : cache_sound K_eq_dec body [].
Proof. intros k v. discriminate. Qed.

Lemma imemoize_stores (k : K) (c : cache K V) :
  cache_lookup K_eq_dec k (snd (fst (imemoize K_eq_dec body k c)))
  = Some (fst (fst (imemoize K_eq_dec body k c))).
Proof.
  unfold imemoize. destruct (cache_lookup K_eq_dec k c) as [v|] eqn:Hl; simpl.
  - exact Hl.
  - destruct (K_eq_dec k k); [reflexivity | contradiction].
Qed.

(** A second call returns the stored value and executes nothing. *)
Lemma imemoize_twice (k : K) (c : cache K V) :
  let '(v1, c1, _) := imemoize K_eq_dec body k c in
  imemoize K_eq_dec body k c1 = (v1, c1, 0).
Proof.
  pose proof (imemoize_stores k c) as Hst.
  destruct (imemoize K_eq_dec body k c) as [[v1 c1] n1]. simpl in Hst.
  unfold imemoize. now rewrite Hst.
Qed.

Lemma imemoize_sound (k : K) (c : cache K V) :
  cache_sound K_eq_dec body c ->
  fst (fst (imemoize K_eq_dec body k c)) = body k /\
  cache_sound K_eq_dec body (snd (fst (imemoize K_eq_dec body k c))).
Proof.
  intros Hc. unfold imemoize.
  destruct (cache_lookup K_eq_dec k c) as [v|] eqn:Hl; simpl.
  - split; [now apply Hc | assumption].
  - split; [reflexivity|]. intros k' v'. simpl.
    destruct (K_eq_dec k' k) as [->|Hne]; [now intros [= <-] | apply Hc].
Qed.

Lemma calls_spec (ks : list K) (c : cache K V) :
  cache_sound K_eq_dec body c ->
  let '(vs, c', log) := calls K_eq_dec body ks c in
  vs = map body ks /\ cache_sound K_eq_dec body c' /\ NoDup log /\
  (forall k, In k log -> In k ks /\ cache_lookup K_eq_dec k c = None).
Proof.
  revert c. induction ks as [|k ks IH]; intros c Hc; simpl.
  - repeat split; auto using NoDup_nil; contradiction.
  - pose proof (imemoize_sound k c Hc) as [Hv Hc1].
    pose proof (imemoize_stores k c) as Hst.
    unfold imemoize in *.
    destruct (cache_lookup K_eq_dec k c) as [v|] eqn:Hl; simpl in *.
    + specialize (IH c Hc).
      destruct (calls K_eq_dec body ks c) as [[vs c'] log].
      destruct IH as (Hvs & Hc' & Hnd & Hlog).
      repeat split; try assumption.
      * now rewrite Hv, Hvs.
      * right. now apply Hlog.
      * now apply Hlog.
    + specialize (IH _ Hc1).
      destruct (calls K_eq_dec body ks ((k, body k) :: c)) as [[vs c'] log].
      destruct IH as (Hvs & Hc' & Hnd & Hlog).
      repeat split; try assumption.
      * now rewrite Hvs.
      * constructor; [|assumption]. intros Hin.
        destruct (Hlog k Hin) as [_ Hnone]. simpl in Hnone.
        destruct (K_eq_dec k k); [discriminate | contradiction].
      * destruct H as [<-|Hin]; [now left | right; now apply Hlog].
      * destruct H as [<-|Hin]; [assumption|].
        destruct (Hlog k0 Hin) as [_ Hnone]. simpl in Hnone.
        destruct (K_eq_dec k0 k); [discriminate | assumption].
Qed.
End ImemoizeFacts.

(* ================================================================== *)
(** * The Kronecker product *)
(* ================================================================== *)


Section KronFacts.
Context {A B D : Type} `{ZA : Zero A} `{ZB : Zero B}.
Variable mul : A -> B -> D.

Lemma shape_np_kron_2d (a : ndarray A) (b : ndarray B) (p q r s : nat) :
  shape a = [p; q] -> shape b = [r; s] ->
  shape (np_kron mul a b) = [p * r; q * s].
Proof.
  intros Ha Hb. unfold np_kron, ndim, pad_shape. rewrite Ha, Hb. reflexivity.
Qed.

Lemma wf_np_kron (a : ndarray A) (b : ndarray B) : wf (np_kron mul a b).
Proof. unfold np_kron. apply wf_tabulate. Qed.

(** The element of a Kronecker product of two matrices: the first factor
    is read at the quotients, the second at the remainders. *)
Lemma item_np_kron_2d `{ZD : Zero D} (a : ndarray A) (b : ndarray B)
    (p q r s i j : nat) :
  shape a = [p; q] -> shape b = [r; s] ->
  i < p * r -> j < q * s ->
  item (np_kron mul a b) [i; j]
  = mul (item a [i / r; j / s]) (item b [i mod r; j mod s]).
Proof.
  intros Ha Hb Hi Hj. unfold np_kron, ndim, pad_shape. rewrite Ha, Hb. simpl.
  rewrite item_tabulate by now apply in_bounds_2d_intro.
  unfold item. rewrite Ha, Hb. reflexivity.
Qed.
End KronFacts.

Lemma div_lt_of_lt_mul (i p r : nat) : i < p * r -> i / r < p.
Proof.
  intros Hi. apply Nat.Div0.div_lt_upper_bound. lia.
Qed.

Lemma mod_lt_of_lt_mul (i p r : nat) : i < p * r -> i mod r < r.
Proof.
  intros Hi. apply Nat.mod_upper_bound. intros ->. lia.
Qed.


(* ================================================================== *)
(** * Loops and the vibrational Hamiltonian *)
(* ================================================================== *)

Lemma bind_Ok {A B : Type} (a : A) (k : A -> result B) : (x <- Ok a ;; k x) = k a.
Proof. reflexivity. Qed.

(** A loop whose every iteration succeeds and keeps [P] succeeds with [P]. *)
Lemma foldM_invariant {A B : Type} (f : A -> B -> result A) (P : A -> Prop)
    (l : list B) (a : A) :
  (forall a0 x, In x l -> P a0 -> exists a1, f a0 x = Ok a1 /\ P a1) ->
  P a ->
  exists a', foldM f l a = Ok a' /\ P a'.
Proof.
  revert a. induction l as [|x l IH]; intros a Hf Pa; simpl.
  - now exists a.
  - destruct (Hf a x (or_introl eq_refl) Pa) as (a1 & -> & Pa1). simpl.
    apply IH; [|assumption]. intros a0 y Hy. apply Hf. now right.
Qed.

(** A loop that succeeded kept what every successful iteration keeps. *)
Lemma foldM_preserves {A B : Type} (f : A -> B -> result A) (P : A -> Prop)
    (l : list B) (a a' : A) :
  (forall a0 x a1, f a0 x = Ok a1 -> P a0 -> P a1) ->
  P a -> foldM f l a = Ok a' -> P a'.
Proof.
  intros Hf. revert a. induction l as [|x l IH]; intros a Pa; simpl.
  - now intros [= <-].
  - destruct (f a x) as [a1|e] eqn:Hfa; simpl; [|discriminate].
    apply IH. now apply (Hf a x a1).
Qed.

Lemma nth_error_combine {A B : Type} (l1 : list A) (l2 : list B) (m : nat) x y :
  nth_error (combine l1 l2) m = Some (x, y) ->
  nth_error l1 m = Some x /\ nth_error l2 m = Some y.
Proof.
  revert l2 m. induction l1 as [|a l1 IH]; intros [|b l2] [|m]; simpl;
    try discriminate.
  - now intros [= -> ->].
  - apply IH.
Qed.

Lemma in_enumerate {A : Type} (l : list A) (m : nat) (x : A) :
  In (m, x) (enumerate l) -> nth_error l m = Some x.
Proof.
  unfold enumerate.
  assert (Hgen : forall start, In (m, x) (combine (seq start (length l)) l) ->
            start <= m /\ nth_error l (m - start) = Some x).
  { induction l as [|a l IH]; intros start; simpl; [contradiction|].
    intros [[= <- <-]|Hin].
    - rewrite Nat.sub_diag. now split.
    - destruct (IH _ Hin) as [Hle Hnth]. split; [lia|].
      replace (m - start) with (S (m - S start)) by lia. exact Hnth. }
  intros Hin. destruct (Hgen 0 Hin) as [_ Hnth]. now rewrite Nat.sub_0_r in Hnth.
Qed.

Lemma np_prod_split (levels : list nat) (m l : nat) :
  nth_error levels m = Some l ->
  np_prod levels
  = np_prod (firstn m levels) * l * np_prod (skipn (S m) levels).
Proof.
  revert m. induction levels as [|a levels IH]; intros [|m]; simpl; try discriminate.
  - intros [= ->]. lia.
  - intros Hnth. rewrite (IH m Hnth). unfold np_prod. simpl. lia.
Qed.

(** ** Diagonal matrices *)

Lemma diagonal_np_identity (n : nat) : diagonal (np_identity n) n.
Proof.
  split; [reflexivity|]. intros i j Hi Hj Hne.
  rewrite item_np_identity by assumption. now apply delta_neq.
Qed.

Lemma np_diag_1d (v : ndarray R) (n : nat) :
  shape v = [n] ->
  exists D, np_diag v = Ok D /\ wf D /\ diagonal D n /\
            forall i, i < n -> item D [i; i] = item v [i].
Proof.
  intros Hs. unfold np_diag. rewrite Hs. eexists. split; [reflexivity|].
  split; [apply wf_tabulate|]. split; [split; [reflexivity|]|].
  - intros i j Hi Hj Hne.
    rewrite item_tabulate by now apply in_bounds_2d_intro.
    unfold ix0, ix1. simpl. rewrite delta_neq by assumption. ring.
  - intros i Hi. rewrite item_tabulate by now apply in_bounds_2d_intro.
    unfold ix0, ix1. simpl. rewrite delta_refl. ring.
Qed.

Lemma diagonal_np_kron (a b : ndarray R) (p r : nat) :
  diagonal a p -> diagonal b r -> diagonal (np_kron Rmult a b) (p * r).
Proof.
  intros (Ha & Hda) (Hb & Hdb). split.
  - now apply shape_np_kron_2d.
  - intros i j Hi Hj Hne.
    rewrite (item_np_kron_2d Rmult a b p p r r i j Ha Hb Hi Hj).
    destruct (Nat.eq_dec (i / r) (j / r)) as [Hq|Hq].
    + rewrite (Hdb (i mod r) (j mod r)); [ring | | |].
      * now apply mod_lt_of_lt_mul with p.
      * now apply mod_lt_of_lt_mul with p.
      * intros Hr. apply Hne.
        rewrite (Nat.div_mod_eq i r), (Nat.div_mod_eq j r). now rewrite Hq, Hr.
    + rewrite (Hda (i / r) (j / r)); [ring | | | assumption];
        now apply div_lt_of_lt_mul.
Qed.

Lemma diagonal_np_scale (c : R) (a : ndarray R) (n : nat) :
  wf a -> diagonal a n -> wf (np_scale c a) /\ diagonal (np_scale c a) n.
Proof.
  intros Hwf (Hs & Hd). split; [now apply wf_np_map|]. split; [exact Hs|].
  intros i j Hi Hj Hne. unfold np_scale.
  rewrite item_np_map; [| assumption | rewrite Hs; now apply in_bounds_2d_intro].
  rewrite (Hd i j Hi Hj Hne). ring.
Qed.

Lemma diagonal_np_iadd (a b : ndarray R) (n : nat) :
  diagonal a n -> diagonal b n ->
  exists c, np_iadd a b = Ok c /\ wf c /\ diagonal c n /\
            forall i j, i < n -> j < n ->
              item c [i; j] = (item a [i; j] + item b [i; j])%R.
Proof.
  intros (Ha & Hda) (Hb & Hdb). unfold np_iadd.
  rewrite np_ibinop_same_shape by congruence.
  eexists. split; [reflexivity|]. split; [apply wf_tabulate|].
  rewrite Ha.
  assert (Hitem : forall i j, i < n -> j < n ->
            item (tabulate [n; n] (fun idx => (item a idx + item b idx)%R)) [i; j]
            = (item a [i; j] + item b [i; j])%R).
  { intros i j Hi Hj. now rewrite item_tabulate by now apply in_bounds_2d_intro. }
  split; [split; [reflexivity|] | exact Hitem].
  intros i j Hi Hj Hne. rewrite Hitem by assumption.
  rewrite (Hda i j), (Hdb i j) by assumption. ring.
Qed.

(** The embedding of a single-mode operator keeps diagonal operators
    diagonal and has the dimension of the joint vibrational space. *)
Lemma extend_vib_operator_diagonal (levels : list nat) (m l : nat) (op : ndarray R) :
  nth_error levels m = Some l ->
  diagonal op l ->
  exists X, extend_vib_operator levels m op = Ok X /\
            wf X /\ diagonal X (np_prod levels).
Proof.
  intros Hnth Hop. unfold extend_vib_operator, tensor. simpl.
  eexists. split; [reflexivity|]. split; [apply wf_np_kron|].
  rewrite (np_prod_split levels m l Hnth).
  apply diagonal_np_kron; [apply diagonal_np_kron|]; try assumption;
    apply diagonal_np_identity.
Qed.

Section VibrationalFacts.
Context `{collab : Collaborators}.

(** [H_vibrational] always returns: a diagonal matrix on the joint
    vibrational space. *)
Lemma H_vibrational_diagonal (vh : VH.t) :
  exists H_vib,
    VH.H_vibrational vh = Ok H_vib /\
    wf H_vib /\ diagonal H_vib (VH.n_vibrational_states vh).
Proof.
  unfold VH.H_vibrational.
  destruct (np_diag_1d (np_zeros [VH.n_vibrational_states vh])
              (VH.n_vibrational_states vh) eq_refl) as (H0 & -> & Hwf0 & Hd0 & _).
  rewrite bind_Ok.
  apply (foldM_invariant _ (fun M => wf M /\ diagonal M (VH.n_vibrational_states vh)));
    [|now split].
  intros M [m [num_levels vib_energy]] Hin [HwfM HdM].
  apply in_enumerate in Hin. apply nth_error_combine in Hin. destruct Hin as [Hl _].
  cbv beta iota.
  destruct (np_diag_1d (np_arange num_levels) num_levels eq_refl)
    as (vib_operator & -> & Hwfv & Hdv & _).
  rewrite bind_Ok.
  destruct (extend_vib_operator_diagonal _ m num_levels vib_operator Hl Hdv)
    as (X & -> & HwfX & HdX).
  rewrite bind_Ok.
  destruct (diagonal_np_scale vib_energy X _ HwfX HdX) as [HwfS HdS].
  destruct (diagonal_np_iadd M (np_scale vib_energy X) _ HdM HdS)
    as (M' & -> & HwfM' & HdM' & _).
  exists M'. split; [reflexivity | split; assumption].
Qed.
End VibrationalFacts.

(* ================================================================== *)
(** * The pieces of the vibronic Hamiltonian *)
(* ================================================================== *)

Lemma np_ibinop_shape {T : Type} `{ZT : Zero T} (f : T -> T -> T)
    (a b c : ndarray T) :
  np_ibinop f a b = Ok c -> shape c = shape a /\ wf c.
Proof.
  unfold np_ibinop, np_binop.
  destruct (broadcast_shapes (shape a) (shape b)) as [s|]; [|discriminate].
  destruct (list_eqb s (shape a)) eqn:Hs; [|discriminate].
  apply list_eqb_eq in Hs. intros [= <-]. simpl.
  split; [assumption | apply wf_tabulate].
Qed.

Lemma np_add_same_shape (a b : ndarray R) (n m : nat) :
  shape a = [n; m] -> shape b = [n; m] ->
  exists c, np_add a b = Ok c /\ shape c = [n; m] /\ wf c /\
            forall i j, i < n -> j < m ->
              item c [i; j] = (item a [i; j] + item b [i; j])%R.
Proof.
  intros Ha Hb. unfold np_add. rewrite np_binop_same_shape by congruence.
  eexists. split; [reflexivity|]. rewrite Ha. split; [reflexivity|].
  split; [apply wf_tabulate|]. intros i j Hi Hj.
  now rewrite item_tabulate by now apply in_bounds_2d_intro.
Qed.

Section VibronicFacts.
Context `{collab : Collaborators}.

Lemma El_n_states_of_H (h : EH.t) (s : string) (M : ndarray R) (n : nat)
    (m : list nat) :
  EH.H h s = Ok M -> shape M = n :: m -> EH.n_states h s = Ok n.
Proof.
  intros HM Hs. unfold EH.n_states, Hamiltonian.n_states.
  rewrite HM, bind_Ok. unfold np_len. now rewrite Hs.
Qed.

Lemma el_to_sys_operator_Arr (vh : VH.t) (a : ndarray R) :
  VH.el_to_sys_operator vh (Arr a)
  = Ok (np_kron Rmult a (np_eye (VH.n_vibrational_states vh))).
Proof. reflexivity. Qed.

Lemma el_to_sys_operator_entries (vh : VH.t) (a : ndarray R) (p q i j : nat) :
  shape a = [p; q] ->
  i < p * VH.n_vibrational_states vh ->
  j < q * VH.n_vibrational_states vh ->
  item (np_kron Rmult a (np_eye (VH.n_vibrational_states vh))) [i; j]
  = Rmult (item a [i / VH.n_vibrational_states vh; j / VH.n_vibrational_states vh])
          (delta (i mod VH.n_vibrational_states vh)
                 (j mod VH.n_vibrational_states vh)).
Proof.
  intros Ha Hi Hj. set (v := VH.n_vibrational_states vh) in *.
  rewrite (item_np_kron_2d Rmult a (np_eye v) p q v v i j Ha eq_refl Hi Hj).
  rewrite item_np_identity;
    [reflexivity | now apply mod_lt_of_lt_mul with p | now apply mod_lt_of_lt_mul with q].
Qed.

Lemma vib_to_sys_operator_Ok (vh : VH.t) (s : string) (v : ndarray R) (n : nat) :
  EH.n_states (VH.electronic vh) s = Ok n ->
  VH.vib_to_sys_operator vh v s = Ok (np_kron Rmult (np_eye n) v).
Proof. intros Hn. unfold VH.vib_to_sys_operator. now rewrite Hn. Qed.

(** The coupling term, when it is returned, has the dimension of the full
    space. *)
Lemma H_electronic_vibrational_shape (vh : VH.t) (s : string) (n : nat)
    (H_ev : ndarray R) :
  EH.n_states (VH.electronic vh) s = Ok n ->
  VH.H_electronic_vibrational vh s = Ok H_ev ->
  shape H_ev = [n * VH.n_vibrational_states vh; n * VH.n_vibrational_states vh]
  /\ wf H_ev.
Proof.
  intros Hn. unfold VH.H_electronic_vibrational. rewrite Hn, bind_Ok.
  set (d := n * VH.n_vibrational_states vh).
  destruct (np_diag_1d (np_zeros [d]) d eq_refl) as (H0 & -> & Hwf0 & [Hs0 _] & _).
  rewrite bind_Ok.
  destruct (EH.n_sites (VH.electronic vh)) as [sites|e]; [|discriminate].
  rewrite bind_Ok.
  apply (foldM_preserves _ (fun M => shape M = [d; d] /\ wf M)); [|now split].
  intros M i M'.
  destruct (EH.number_operator (VH.electronic vh) i s) as [el_operator|e];
    [|discriminate].
  rewrite bind_Ok. intros Hfold HM. revert Hfold.
  apply (foldM_preserves _ (fun M => shape M = [d; d] /\ wf M)); [|assumption].
  clear M M' HM. intros M [m num_levels] M'. cbv beta iota.
  destruct (lift "vib_annihilate" (vib_annihilate num_levels)) as [a|e];
    [|discriminate]. rewrite bind_Ok.
  destruct (lift "vib_create" (vib_create num_levels)) as [c|e];
    [|discriminate]. rewrite bind_Ok.
  destruct (np_add a c) as [vib_operator|e]; [|discriminate]. rewrite bind_Ok.
  destruct (getitem (VH.elec_vib_couplings vh) [i; m]) as [c_im|e];
    [|discriminate]. rewrite bind_Ok.
  destruct (extend_vib_operator _ m vib_operator) as [X|e]; [|discriminate].
  rewrite bind_Ok.
  destruct (tensor [Arr el_operator; Arr X]) as [Tn|e]; [|discriminate].
  rewrite bind_Ok.
  intros Hadd [HsM _]. apply np_ibinop_shape in Hadd. destruct Hadd as [Hs' Hwf'].
  split; [congruence | assumption].
Qed.
End VibronicFacts.

(* ================================================================== *)
(** * Complex sums and density operators *)
(* ================================================================== *)

Lemma C_eq (z w : C) : Re z = Re w -> Im z = Im w -> z = w.
Proof. destruct z, w; simpl. now intros -> ->. Qed.






Lemma np_prod_pos (levels : list nat) :
  Forall (lt 0) levels -> 0 < np_prod levels.
Proof.
  induction 1 as [|l levels Hl _ IH]; simpl; [lia|].
  unfold np_prod in *. simpl. nia.
Qed.

Lemma diagonal_np_map (f : R -> R) (a : ndarray R) (n : nat) :
  f 0%R = 0%R -> wf a -> diagonal a n ->
  wf (np_map f a) /\ diagonal (np_map f a) n /\
  forall i j, i < n -> j < n -> item (np_map f a) [i; j] = f (item a [i; j]).
Proof.
  intros Hf Hwf (Hs & Hd).
  assert (Hitem : forall i j, i < n -> j < n ->
            item (np_map f a) [i; j] = f (item a [i; j])).
  { intros i j Hi Hj. apply item_np_map; [assumption|].
    rewrite Hs. now apply in_bounds_2d_intro. }
  split; [now apply wf_np_map|]. split; [|exact Hitem].
  split; [exact Hs|]. intros i j Hi Hj Hne.
  rewrite Hitem by assumption. now rewrite (Hd i j Hi Hj Hne).
Qed.

Lemma np_trace_square (a : ndarray R) (n : nat) :
  shape a = [n; n] -> np_trace a = Ok (Rsum n (fun i => item a [i; i])).
Proof. intros Hs. unfold np_trace. now rewrite Hs, Nat.min_id. Qed.

Section GroundStateFacts.
Context `{collab : Collaborators}.

(** The electronic ground state: a single 1 at the ground basis state. *)
Lemma El_ground_state_entries (h : EH.t) (s : string) (n : nat) :
  str_in "g" s = true ->
  EH.n_states h s = Ok n -> 0 < n ->
  exists g,
    EH.ground_state h s = Ok g /\ shape g = [n; n] /\ wf g /\
    forall i j, i < n -> j < n ->
      item g [i; j] = if (i =? 0) && (j =? 0) then C1 else zero.
Proof.
  intros Hg Hn Hpos. unfold EH.ground_state. rewrite Hn, bind_Ok, Hg.
  unfold setitem. simpl shape.
  rewrite (in_bounds_2d_intro n n 0 0 Hpos Hpos).
  eexists. split; [reflexivity|]. split; [reflexivity|].
  split; [apply wf_tabulate|]. intros i j Hi Hj.
  rewrite item_tabulate by now apply in_bounds_2d_intro.
  simpl. rewrite andb_true_r.
  destruct ((i =? 0) && (j =? 0)); [reflexivity|].
  unfold np_zeros. now rewrite item_tabulate by now apply in_bounds_2d_intro.
Qed.

End GroundStateFacts.

(* ================================================================== *)
(** * Error behaviour of the queries *)
(* ================================================================== *)





Section ErrorClaims.
Context `{collab : Collaborators}.





End ErrorClaims.




(** C3, what the code does.  A [VibronicHamiltonian] built on an
    electronic Hamiltonian without bath never returns a ground state, and
    what it raises is not a [HamiltonianError]: once the electronic ground
    state is computed, reading [self.bath.temperature] raises an
    [AttributeError]. *)
Theorem C3_ground_state_without_bath_raises_AttributeError :
  forall (collab : Collaborators) (el : EH.t) (levels : list nat)
         (energies : list R) (couplings : ndarray R) (vh : VH.t) (s : string),
    EH.bath el = None ->
    VH.init el levels energies couplings = Ok vh ->
    (exists e, VH.ground_state vh s = Raise e /\ class_of e <> cHamiltonianError) /\
    (forall g, EH.ground_state el s = Ok g ->
       VH.ground_state vh s
       = Raise (AttributeError "'NoneType' object has no attribute 'temperature'")).
Proof.
  intros collab el levels energies couplings vh s Hb Hinit.
  unfold VH.init in Hinit. destruct (EH.n_sites el) as [n|e] eqn:Hn; [|discriminate].
  rewrite bind_Ok in Hinit. injection Hinit as <-.
  match goal with |- context [VH.ground_state ?v s] => set (vh := v) end.
  destruct (H_vibrational_diagonal vh) as (H_vib & HHvib & _).
  assert (Hgs : forall g, EH.ground_state el s = Ok g ->
            VH.ground_state vh s
            = Raise (AttributeError "'NoneType' object has no attribute 'temperature'")).
  { intros g Hg. unfold VH.ground_state. change (VH.electronic vh) with el.
    rewrite Hg, bind_Ok, HHvib, bind_Ok. change (VH.bath vh) with (EH.bath el).
    now rewrite Hb. }
  split; [|exact Hgs].
  destruct (EH.ground_state el s) as [g|e] eqn:Hg.
  - rewrite (Hgs g eq_refl). eexists. split; [reflexivity | discriminate].
  - exists e. split.
    + unfold VH.ground_state. change (VH.electronic vh) with el. now rewrite Hg.
    + now apply (clean_El_ground_state el s e Hg).
Qed.

Lemma C3_witness :
  (exists e, VH.ground_state (collab := sample_collaborators) (sample_vibronic sample_electronic) "g"
             = Raise e /\ class_of e <> cHamiltonianError).
Proof.
  apply (C3_ground_state_without_bath_raises_AttributeError sample_collaborators
           sample_electronic [2] [1%R] (mk_ndarray [2; 1] [1; 1]%R)
           (sample_vibronic sample_electronic) "g"); reflexivity.
Defined.

(** C9.  [__init__] sets [n_vibrational_states] to 1, so every
    [ElectronicHamiltonian] has it, also the one [in_rotating_frame]
    returns; a [VibronicHamiltonian] without vibrational modes has the
    same value. *)
Theorem C9_electronic_n_vibrational_states_is_1 :
  forall (collab : Collaborators) (H_1exc : ndarray R) (energy_offset : R)
         (bath : option Bath) (dipoles : option (ndarray R))
         (energy_spread_extra : R) (h : EH.t) (rw_freq : option R)
         (vh : VH.t),
    EH.n_vibrational_states
      (EH.init H_1exc energy_offset bath dipoles energy_spread_extra) = 1 /\
    match EH.in_rotating_frame h rw_freq with
    | Ok h' => EH.n_vibrational_states h' = 1
    | Raise _ => True
    end /\
    match VH.n_vibrational_levels vh with
    | [] => VH.n_vibrational_states vh = 1
    | _ :: _ => True
    end.
Proof.
  intros. split; [reflexivity|]. split.
  - unfold EH.in_rotating_frame.
    destruct (match rw_freq with None => _ | Some f => _ end) as [rw|e]; simpl; [|exact I].
    destruct (np_len (EH.H_1exc h)) as [n|e]; simpl; [|exact I].
    destruct (np_sub _ _) as [H1|e]; simpl; [reflexivity | exact I].
  - unfold VH.n_vibrational_states. destruct (VH.n_vibrational_levels vh); [reflexivity | exact I].
Qed.

(* ================================================================== *)
(** * The rotating frame *)
(* ================================================================== *)

Section RotatingFrame.
Context `{collab : Collaborators}.

Lemma in_rotating_frame_at (h : EH.t) (n : nat) (f : R) :
  shape (EH.H_1exc h) = [n; n] ->
  exists M',
    np_sub (EH.H_1exc h)
           (np_scale (f - EH.energy_offset h) (np_identity n)) = Ok M' /\
    EH.in_rotating_frame h (Some f)
    = Ok (EH.init M' f (EH.bath h) (EH.dipoles h) (EH.energy_spread_extra h)) /\
    shape M' = [n; n] /\ wf M' /\
    forall i j, i < n -> j < n ->
      item M' [i; j]
      = (item (EH.H_1exc h) [i; j] - (f - EH.energy_offset h) * delta i j)%R.
Proof.
  intros Hs.
  destruct (np_sub_scaled_identity (EH.H_1exc h) n (f - EH.energy_offset h) Hs)
    as (M' & Hsub & Hs' & Hwf' & Hitem).
  exists M'. split; [exact Hsub|]. split; [|now repeat split].
  unfold EH.in_rotating_frame, np_len. simpl. rewrite Hs. simpl.
  now rewrite Hsub.
Qed.
End RotatingFrame.



(** C5.  With exact arithmetic the rotating-frame transform is undone by
    transforming back to the original offset: for an [n] by [n] matrix
    [H_1exc], [h.in_rotating_frame(f).in_rotating_frame(e0)] with [e0 =
    h.energy_offset] has the [H_1exc] of [h] and the offset [e0]. *)
Theorem C5_rotating_frame_round_trip :
  forall (collab : Collaborators) (h : EH.t) (n : nat) (f : R),
    shape (EH.H_1exc h) = [n; n] ->
    wf (EH.H_1exc h) ->
    exists h1 h2,
      EH.in_rotating_frame h (Some f) = Ok h1 /\
      EH.in_rotating_frame h1 (Some (EH.energy_offset h)) = Ok h2 /\
      EH.H_1exc h2 = EH.H_1exc h /\
      EH.energy_offset h2 = EH.energy_offset h.
Proof.
  intros collab h n f Hs Hwf.
  destruct (in_rotating_frame_at h n f Hs) as (M1 & _ & Hrf1 & Hs1 & Hwf1 & Hitem1).
  set (h1 := EH.init M1 f (EH.bath h) (EH.dipoles h) (EH.energy_spread_extra h)) in *.
  destruct (in_rotating_frame_at h1 n (EH.energy_offset h) Hs1)
    as (M2 & _ & Hrf2 & Hs2 & Hwf2 & Hitem2).
  exists h1. eexists. split; [exact Hrf1|]. split; [exact Hrf2|].
  simpl. split; [|reflexivity].
  apply ndarray_ext; [assumption | assumption | congruence |].
  intros idx Hb. rewrite Hs2 in Hb.
  destruct (in_bounds_2d _ _ _ Hb) as (-> & Hi & Hj).
  rewrite Hitem2, Hitem1 by assumption. simpl. ring.
Qed.

Lemma C5_witness :
  exists h1 h2,
    EH.in_rotating_frame (collab := sample_collaborators) sample_electronic (Some 5%R)
      = Ok h1 /\
    EH.in_rotating_frame (collab := sample_collaborators) h1 (Some 0%R) = Ok h2 /\
    EH.H_1exc h2 = sample_H_1exc /\
    EH.energy_offset h2 = 0%R.
Proof.
  exact (C5_rotating_frame_round_trip sample_collaborators sample_electronic 2 5%R
           eq_refl eq_refl).
Defined.

(* ================================================================== *)
(** * The mean excitation frequency in the rotating frame *)
(* ================================================================== *)

Section MeanExcitationFreq.
Context `{collab : Collaborators}.

Lemma mean_excitation_freq_trace (h : EH.t) (n : nat) :
  extend_e_unchanged ->
  symmetric (EH.H_1exc h) n ->
  eigh_exact_on (EH.H_1exc h) n ->
  EH.mean_excitation_freq h
  = Ok (Rsum n (fun i => item (EH.H_1exc h) [i; i]) / INR n
        + EH.energy_offset h)%R.
Proof.
  intros Hext Hsym Hexact.
  destruct (Hexact Hsym) as (E & U & Heigh & Hdec).
  unfold EH.mean_excitation_freq, Hamiltonian.mean_excitation_freq,
    Hamiltonian.E, Hamiltonian.eig, EH.H.
  rewrite Hext. simpl. rewrite Heigh. simpl.
  now rewrite (np_mean_eigenvalues _ E U n Hdec).
Qed.
End MeanExcitationFreq.

(** C10.  With exact arithmetic [mean_excitation_freq] is invariant under
    the rotating-frame transform: for an [ElectronicHamiltonian] [h] with
    a Hermitian [n] by [n] matrix [H_1exc], [n >= 1], and a frequency [f],
    [h.in_rotating_frame(f).mean_excitation_freq] is
    [h.mean_excitation_freq].  Here [H('e')] is [H_1exc] itself, and
    [eigh] returns exact eigendecompositions of the two Hermitian
    matrices it is called on. *)
Theorem C10_mean_excitation_freq_invariant :
  forall (collab : Collaborators) (h : EH.t) (n : nat) (f : R),
    extend_e_unchanged ->
    0 < n ->
    symmetric (EH.H_1exc h) n ->
    eigh_exact_on (EH.H_1exc h) n ->
    (forall M',
       np_sub (EH.H_1exc h)
              (np_scale (f - EH.energy_offset h) (np_identity n)) = Ok M' ->
       eigh_exact_on M' n) ->
    exists h' m,
      EH.in_rotating_frame h (Some f) = Ok h' /\
      EH.mean_excitation_freq h' = Ok m /\
      EH.mean_excitation_freq h = Ok m.
Proof.
  intros collab h n f Hext Hn Hsym Hexact Hexact'.
  pose proof Hsym as (Hs & Hsymm).
  destruct (in_rotating_frame_at h n f Hs) as (M' & Hsub & Hrf & Hs' & Hwf' & Hitem).
  eexists. eexists. split; [exact Hrf|].
  assert (Hsym' : symmetric M' n).
  { split; [assumption|]. intros i j Hi Hj.
    rewrite !Hitem by assumption. rewrite (Hsymm i j Hi Hj), (delta_sym i j).
    reflexivity. }
  rewrite (mean_excitation_freq_trace h n Hext Hsym Hexact).
  rewrite (mean_excitation_freq_trace
             (EH.init M' f (EH.bath h) (EH.dipoles h) (EH.energy_spread_extra h))
             n Hext Hsym' (Hexact' M' Hsub)).
  split; [reflexivity|]. simpl. f_equal.
  rewrite (Rsum_ext n (fun i => item M' [i; i])
             (fun i => item (EH.H_1exc h) [i; i] - (f - EH.energy_offset h))%R).
  - rewrite Rsum_minus_const.
    assert (INR n <> 0)%R by (apply not_0_INR; lia).
    field. assumption.
  - intros i Hi. rewrite Hitem, delta_refl by assumption. ring.
Qed.

Lemma sample_diagonal_is_diagonal :
  diagonal (EH.H_1exc sample_diagonal_electronic) 2.
Proof.
  split; [reflexivity|].
  intros [|[|i]] [|[|j]] Hi Hj Hne; try lia; reflexivity.
Qed.

Lemma diagonal_symmetric (M : ndarray R) (n : nat) : diagonal M n -> symmetric M n.
Proof.
  intros (Hs & Hd). split; [assumption|]. intros i j Hi Hj.
  destruct (Nat.eq_dec i j) as [->|Hne]; [reflexivity|].
  rewrite (Hd i j), (Hd j i); auto.
Qed.

Lemma C10_witness :
  exists h' m,
    EH.in_rotating_frame (collab := sample_collaborators)
      sample_diagonal_electronic (Some 5%R) = Ok h' /\
    EH.mean_excitation_freq (collab := sample_collaborators) h' = Ok m /\
    EH.mean_excitation_freq (collab := sample_collaborators)
      sample_diagonal_electronic = Ok m.
Proof.
  apply (C10_mean_excitation_freq_invariant sample_collaborators
           sample_diagonal_electronic 2 5%R).
  - intros M. reflexivity.
  - lia.
  - apply diagonal_symmetric, sample_diagonal_is_diagonal.
  - apply sample_eigh_exact, sample_diagonal_is_diagonal.
  - intros M' Hsub. apply sample_eigh_exact.
    destruct (np_sub_scaled_identity (EH.H_1exc sample_diagonal_electronic) 2
                (5 - EH.energy_offset sample_diagonal_electronic)%R eq_refl)
      as (M'' & Hsub' & Hs'' & _ & Hitem).
    rewrite Hsub in Hsub'. injection Hsub' as <-.
    split; [assumption|]. intros i j Hi Hj Hne.
    rewrite Hitem by assumption.
    destruct sample_diagonal_is_diagonal as (_ & Hd).
    rewrite (Hd i j Hi Hj Hne), delta_neq by assumption. ring.
Defined.

(* ================================================================== *)
(** * Memoization *)
(* ================================================================== *)

(** C8.  On every object, of either class, a second memoized query with
    the same argument tuple returns the stored answer of the first, leaves
    the cache as it is and executes nothing.  On a new object, any
    sequence of queries returns what the unmemoized bodies return, and no
    argument tuple has its body executed twice. *)
Theorem C8_memoized_queries :
  forall (collab : Collaborators) (o : object) (q : query)
         (self : instance) (qs : list query),
    (let '(v1, o1, _) := call o q in call o1 q = (v1, o1, 0)) /\
    (let '(vs, o', log) := call_all (new_object self) qs in
     vs = map (unmemoized self) qs /\
     self_of o' = self /\
     NoDup log /\
     forall k, In k log -> In k qs).
Proof.
  intros collab o q self qs. split.
  - unfold call.
    pose proof (imemoize_twice query answer query_eq_dec (unmemoized (self_of o)) q (memo o)) as Htw.
    destruct (imemoize query_eq_dec (unmemoized (self_of o)) q (memo o))
      as [[v1 c1] n1]. simpl. now rewrite Htw.
  - unfold call_all, new_object. simpl.
    pose proof (calls_spec query answer query_eq_dec (unmemoized self) qs []
                  (cache_sound_nil query answer query_eq_dec (unmemoized self))) as Hsp.
    destruct (calls query_eq_dec (unmemoized self) qs []) as [[vs c'] log].
    destruct Hsp as (Hvs & _ & Hnd & Hlog).
    repeat split; try assumption. intros k Hin. now apply Hlog.
Qed.

(* ================================================================== *)
(** * System-bath couplings of a vibronic Hamiltonian *)
(* ================================================================== *)

Lemma mapM_seq_ok {B : Type} (f : nat -> result B) (P : B -> Prop) (n : nat) (d : B) :
  (forall k, k < n -> exists y, f k = Ok y /\ P y) ->
  exists ys,
    mapM f (seq 0 n) = Ok ys /\ length ys = n /\
    forall k, k < n -> f k = Ok (nth k ys d) /\ P (nth k ys d).
Proof.
  intros Hf.
  assert (Hgen : forall len start, start + len <= n ->
            exists ys, mapM f (seq start len) = Ok ys /\ length ys = len /\
              forall i, i < len ->
                f (start + i) = Ok (nth i ys d) /\ P (nth i ys d)).
  { induction len as [|len IH]; intros start Hle; simpl.
    - exists []. repeat split; intros; lia.
    - destruct (Hf start) as (y & Hy & HP); [lia|].
      destruct (IH (S start)) as (ys & Hys & Hlen & Hnth); [lia|].
      exists (y :: ys). rewrite Hy, Hys. simpl.
      split; [reflexivity|]. split; [now rewrite Hlen|].
      intros [|i] Hi; simpl.
      + rewrite Nat.add_0_r. now split.
      + replace (start + S i) with (S start + i) by lia. apply Hnth. lia. }
  destruct (Hgen n 0) as (ys & Hys & Hlen & Hnth); [lia|].
  exists ys. repeat split; try assumption; now apply Hnth.
Qed.




(* ================================================================== *)
(** * The vibronic Hamiltonian *)
(* ================================================================== *)

(** C6.  When the electronic Hamiltonian [H(subspace)] is an [n] by [n]
    matrix and the coupling term is returned, [H(subspace)] of the
    vibronic Hamiltonian is the sum of three terms: [H_el] tensored with
    the identity of the vibrational space, the identity of size [n]
    tensored with [H_vibrational], and [H_electronic_vibrational].  In both
    tensor products the electronic factor comes first: with [v] the number
    of vibrational states, the electronic index of row [i] is [i / v] and
    its vibrational index is [i mod v]. *)
Theorem C6_vibronic_H_three_terms :
  forall (collab : Collaborators) (vh : VH.t) (s : string)
         (H_el H_ev : ndarray R) (n : nat),
    EH.H (VH.electronic vh) s = Ok H_el ->
    shape H_el = [n; n] ->
    VH.H_electronic_vibrational vh s = Ok H_ev ->
    exists H_vib A B AB M,
      VH.H_vibrational vh = Ok H_vib /\
      VH.el_to_sys_operator vh (Arr H_el) = Ok A /\
      A = np_kron Rmult H_el (np_eye (VH.n_vibrational_states vh)) /\
      VH.vib_to_sys_operator vh H_vib s = Ok B /\
      B = np_kron Rmult (np_eye n) H_vib /\
      np_add A B = Ok AB /\ np_add AB H_ev = Ok M /\
      VH.H vh s = Ok M /\
      shape M = [n * VH.n_vibrational_states vh; n * VH.n_vibrational_states vh] /\
      forall i j,
        i < n * VH.n_vibrational_states vh ->
        j < n * VH.n_vibrational_states vh ->
        item M [i; j] = (item A [i; j] + item B [i; j] + item H_ev [i; j])%R /\
        item A [i; j]
        = Rmult (item H_el [i / VH.n_vibrational_states vh;
                            j / VH.n_vibrational_states vh])
                (delta (i mod VH.n_vibrational_states vh)
                       (j mod VH.n_vibrational_states vh)) /\
        item B [i; j]
        = Rmult (delta (i / VH.n_vibrational_states vh)
                       (j / VH.n_vibrational_states vh))
                (item H_vib [i mod VH.n_vibrational_states vh;
                             j mod VH.n_vibrational_states vh]).
Proof.
  intros collab vh s H_el H_ev n HHel Hs HHev.
  set (v := VH.n_vibrational_states vh).
  destruct (H_vibrational_diagonal vh) as (H_vib & HHvib & Hwfv & (Hsv & _)).
  fold v in Hsv.
  pose proof (El_n_states_of_H _ s H_el n [n] HHel Hs) as Hn.
  destruct (H_electronic_vibrational_shape vh s n H_ev Hn HHev) as [Hsev Hwfev].
  fold v in Hsev.
  set (A := np_kron Rmult H_el (np_eye v)).
  set (B := np_kron Rmult (np_eye n) H_vib).
  assert (HsA : shape A = [n * v; n * v])
    by (apply shape_np_kron_2d; [assumption | reflexivity]).
  assert (HsB : shape B = [n * v; n * v])
    by (apply shape_np_kron_2d; [reflexivity | assumption]).
  destruct (np_add_same_shape A B _ _ HsA HsB) as (AB & HAB & HsAB & _ & HitemAB).
  destruct (np_add_same_shape AB H_ev _ _ HsAB Hsev) as (M & HM & HsM & _ & HitemM).
  exists H_vib, A, B, AB, M.
  split; [assumption|]. split; [apply el_to_sys_operator_Arr|].
  split; [reflexivity|]. split; [now apply vib_to_sys_operator_Ok|].
  split; [reflexivity|]. split; [assumption|]. split; [assumption|].
  split; [|split; [assumption|]].
  - unfold VH.H. rewrite HHel, bind_Ok, el_to_sys_operator_Arr, bind_Ok.
    rewrite HHvib, bind_Ok, (vib_to_sys_operator_Ok vh s H_vib n Hn), bind_Ok.
    fold v. fold A. fold B. rewrite HAB, bind_Ok, HHev, bind_Ok. exact HM.
  - intros i j Hi Hj. split; [|split].
    + rewrite HitemM, HitemAB by assumption. reflexivity.
    + unfold A. rewrite (item_np_kron_2d Rmult H_el (np_eye v) n n v v i j)
        by (assumption || reflexivity).
      rewrite item_np_identity by (now apply mod_lt_of_lt_mul with n). reflexivity.
    + unfold B. rewrite (item_np_kron_2d Rmult (np_eye n) H_vib n n v v i j)
        by (assumption || reflexivity).
      rewrite item_np_identity by (now apply div_lt_of_lt_mul). reflexivity.
Qed.

Lemma sample_H_electronic_vibrational_returns :
  exists H_ev,
    VH.H_electronic_vibrational (collab := sample_collaborators)
      (sample_vibronic sample_electronic_bath) "e" = Ok H_ev.
Proof. eexists. reflexivity. Qed.

Lemma C6_witness :
  exists M,
    VH.H (collab := sample_collaborators)
      (sample_vibronic sample_electronic_bath) "e" = Ok M /\
    shape M = [4; 4].
Proof.
  destruct sample_H_electronic_vibrational_returns as (H_ev & HHev).
  destruct (C6_vibronic_H_three_terms sample_collaborators
              (sample_vibronic sample_electronic_bath) "e"
              sample_H_1exc H_ev 2 eq_refl eq_refl HHev)
    as (H_vib & A & B & AB & M & _ & _ & _ & _ & _ & _ & _ & HM & HsM & _).
  exists M. split; assumption.
Defined.

(* ================================================================== *)
(** * Ground states *)
(* ================================================================== *)

Section GroundStates.
Context `{collab : Collaborators}.


End GroundStates.


Lemma sample_expm_exact : expm_exact_on_diagonal (collab := sample_collaborators).
Proof.
  intros D n _ (Hs & _). simpl. unfold sample_expm. now rewrite Hs, Nat.eqb_refl.
Qed.


(* ================================================================== *)
(** * Sampling rate and time step *)
(* ================================================================== *)

Lemma fold_left_Rmax_ge (l : list R) (x : R) :
  (x <= fold_left Rmax l x)%R /\
  forall y, In y l -> (y <= fold_left Rmax l x)%R.
Proof.
  revert x. induction l as [|a l IH]; intros x; simpl.
  - split; [lra | contradiction].
  - destruct (IH (Rmax x a)) as [Hx Hl]. split.
    + pose proof (Rmax_l x a). lra.
    + intros y [<-|Hy]; [|now apply Hl].
      pose proof (Rmax_r x a). lra.
Qed.

Lemma fold_left_Rmin_le (l : list R) (x : R) :
  (fold_left Rmin l x <= x)%R /\
  forall y, In y l -> (fold_left Rmin l x <= y)%R.
Proof.
  revert x. induction l as [|a l IH]; intros x; simpl.
  - split; [lra | contradiction].
  - destruct (IH (Rmin x a)) as [Hx Hl]. split.
    + pose proof (Rmin_l x a). lra.
    + intros y [<-|Hy]; [|now apply Hl].
      pose proof (Rmin_r x a). lra.
Qed.

Lemma np_max_min_bounds (a : ndarray R) :
  data a <> [] ->
  exists hi lo,
    np_max a = Ok hi /\ np_min a = Ok lo /\
    forall x, In x (data a) -> (lo <= x <= hi)%R.
Proof.
  intros Hne. unfold np_max, np_min.
  destruct (data a) as [|x l]; [contradiction|].
  do 2 eexists. split; [reflexivity|]. split; [reflexivity|].
  destruct (fold_left_Rmax_ge l x) as [Hx Hl].
  destruct (fold_left_Rmin_le l x) as [Hx' Hl'].
  intros y [<-|Hy]; split; auto.
Qed.

Lemma fold_left_Rmax_In (l : list R) (x : R) :
  In (fold_left Rmax l x) (x :: l).
Proof.
  revert x. induction l as [|a l IH]; intros x; simpl.
  - now left.
  - destruct (IH (Rmax x a)) as [Heq|Hin].
    + rewrite <- Heq. unfold Rmax. destruct (Rle_dec x a); auto.
    + right. now right.
Qed.

Lemma fold_left_Rmin_In (l : list R) (x : R) :
  In (fold_left Rmin l x) (x :: l).
Proof.
  revert x. induction l as [|a l IH]; intros x; simpl.
  - now left.
  - destruct (IH (Rmin x a)) as [Heq|Hin].
    + rewrite <- Heq. unfold Rmin. destruct (Rle_dec x a); auto.
    + right. now right.
Qed.

Lemma np_max_min_attained (a : ndarray R) (hi lo : R) :
  np_max a = Ok hi -> np_min a = Ok lo ->
  In hi (data a) /\ In lo (data a).
Proof.
  unfold np_max, np_min. destruct (data a) as [|x l]; [discriminate|].
  intros [= <-] [= <-]. split.
  - apply fold_left_Rmax_In.
  - apply fold_left_Rmin_In.
Qed.

(** [freq_step] resolves every pair of eigen-energies of ['gef'].  When
    the eigenvalues are returned and there is at least one, [freq_step]
    returns exactly [2 * (hi - lo + energy_spread_extra)], where [hi] is the
    largest and [lo] the smallest eigenvalue (each is an eigenvalue, and
    every eigenvalue lies between them).  That value is at least twice
    [energy_spread_extra], and at least twice the difference of any two
    eigenvalues plus [energy_spread_extra]. *)
Theorem freq_step_covers_spectrum :
  forall (collab : Collaborators) (self_H : string -> result (ndarray R))
         (energy_spread_extra : R) (e : ndarray R),
    Hamiltonian.E self_H "gef" = Ok e ->
    data e <> [] ->
    exists hi lo,
      In hi (data e) /\ In lo (data e) /\
      (forall x, In x (data e) -> (lo <= x <= hi)%R) /\
      Hamiltonian.freq_step self_H energy_spread_extra
        = Ok (2 * (hi - lo + energy_spread_extra))%R /\
      (2 * energy_spread_extra <= 2 * (hi - lo + energy_spread_extra))%R /\
      forall x y, In x (data e) -> In y (data e) ->
        (2 * (x - y + energy_spread_extra)
         <= 2 * (hi - lo + energy_spread_extra))%R.
Proof.
  intros collab self_H spread e He Hne.
  destruct (np_max_min_bounds e Hne) as (hi & lo & Hhi & Hlo & Hbound).
  destruct (np_max_min_attained e hi lo Hhi Hlo) as [Hin_hi Hin_lo].
  exists hi, lo. repeat split; try assumption; try (now apply Hbound).
  - unfold Hamiltonian.freq_step. now rewrite He, bind_Ok, Hhi, !bind_Ok, Hlo, bind_Ok.
  - destruct (Hbound hi Hin_hi). lra.
  - intros x y Hx Hy. destruct (Hbound x Hx), (Hbound y Hy). lra.
Qed.

Lemma sample_gef_eigenvalues :
  Hamiltonian.E (collab := sample_collaborators)
    (fun _ => Ok (EH.H_1exc sample_diagonal_electronic)) "gef"
  = Ok (tabulate [2] (fun idx =>
          item (EH.H_1exc sample_diagonal_electronic) [ix0 idx; ix0 idx])).
Proof. reflexivity. Qed.

Lemma freq_step_covers_spectrum_witness :
  exists hi lo,
    Hamiltonian.freq_step (collab := sample_collaborators)
      (fun _ => Ok (EH.H_1exc sample_diagonal_electronic)) 100
    = Ok (2 * (hi - lo + 100))%R /\
    (2 * 100 <= 2 * (hi - lo + 100))%R.
Proof.
  destruct (freq_step_covers_spectrum sample_collaborators
              (fun _ => Ok (EH.H_1exc sample_diagonal_electronic)) 100 _
              sample_gef_eigenvalues) as (hi & lo & _ & _ & _ & Hf & Hle & _).
  - discriminate.
  - exists hi, lo. now split.
Defined.

(** Without eigenvalues there is no sampling rate: on an empty spectrum
    [freq_step] and [time_step] raise the [ValueError] of [max()]. *)
Theorem freq_step_empty_spectrum :
  forall (collab : Collaborators) (self_H : string -> result (ndarray R))
         (energy_spread_extra : R) (e : ndarray R),
    Hamiltonian.E self_H "gef" = Ok e ->
    data e = [] ->
    Hamiltonian.freq_step self_H energy_spread_extra = Raise ValueError /\
    Hamiltonian.time_step self_H energy_spread_extra = Raise ValueError.
Proof.
  intros collab self_H spread e He Hd.
  assert (Hf : Hamiltonian.freq_step self_H spread = Raise ValueError).
  { unfold Hamiltonian.freq_step. rewrite He, bind_Ok. unfold np_max. now rewrite Hd. }
  split; [exact Hf|]. unfold Hamiltonian.time_step. now rewrite Hf.
Qed.

Lemma freq_step_empty_spectrum_witness :
  Hamiltonian.freq_step (collab := sample_collaborators)
    (fun _ => Ok (mk_ndarray [0; 0] [])) 100 = Raise ValueError.
Proof.
  apply (freq_step_empty_spectrum sample_collaborators
           (fun _ => Ok (mk_ndarray [0; 0] [])) 100 (tabulate [0] (fun _ => 0%R)));
    reflexivity.
Defined.

(** With a positive [energy_spread_extra] the time step is positive and
    at most [1 / (2 * energy_spread_extra)], whatever the spectrum. *)
Theorem time_step_bounds :
  forall (collab : Collaborators) (self_H : string -> result (ndarray R))
         (energy_spread_extra : R) (e : ndarray R),
    Hamiltonian.E self_H "gef" = Ok e ->
    data e <> [] ->
    (0 < energy_spread_extra)%R ->
    exists t,
      Hamiltonian.time_step self_H energy_spread_extra = Ok t /\
      (0 < t <= 1 / (2 * energy_spread_extra))%R.
Proof.
  intros collab self_H spread e He Hne Hpos.
  destruct (np_max_min_bounds e Hne) as (hi & lo & Hhi & Hlo & Hbound).
  assert (Hf : Hamiltonian.freq_step self_H spread = Ok (2 * (hi - lo + spread))%R).
  { unfold Hamiltonian.freq_step. now rewrite He, bind_Ok, Hhi, !bind_Ok, Hlo, bind_Ok. }
  assert (Hspan : (lo <= hi)%R).
  { destruct (data e) as [|x l] eqn:Hd; [contradiction|].
    destruct (Hbound x (or_introl eq_refl)). lra. }
  eexists. split.
  - unfold Hamiltonian.time_step. rewrite Hf, bind_Ok. reflexivity.
  - assert (Hf_pos : (0 < 2 * (hi - lo + spread))%R) by lra.
    split.
    + apply Rdiv_lt_0_compat; lra.
    + unfold Rdiv. rewrite !Rmult_1_l.
      apply Rinv_le_contravar; lra.
Qed.

Lemma time_step_bounds_witness :
  exists t,
    Hamiltonian.time_step (collab := sample_collaborators)
      (fun _ => Ok (EH.H_1exc sample_diagonal_electronic)) 100 = Ok t /\
    (0 < t)%R.
Proof.
  destruct (time_step_bounds sample_collaborators
              (fun _ => Ok (EH.H_1exc sample_diagonal_electronic)) 100 _
              sample_gef_eigenvalues) as (t & Ht & Hpos & _).
  - discriminate.
  - lra.
  - exists t. now split.
Defined.

(* ================================================================== *)
(** * Edges of the electronic ground state *)
(* ================================================================== *)

Lemma Csum_zero (n : nat) (f : nat -> C) :
  (forall i, i < n -> f i = zero) -> Csum n f = zero.
Proof.
  induction n as [|n IH]; intros Hf; simpl; [reflexivity|].
  rewrite IH, Hf by auto. apply C_eq; simpl; ring.
Qed.

(** In a subspace without the ground manifold the electronic ground state
    is the zero matrix of the dimension of the subspace: it has trace 0
    and is no density operator. *)
Theorem ground_state_without_ground_manifold :
  forall (collab : Collaborators) (h : EH.t) (s : string) (n : nat),
    str_in "g" s = false ->
    EH.n_states h s = Ok n ->
    exists g,
      EH.ground_state h s = Ok g /\
      shape g = [n; n] /\ wf g /\
      (forall i j, i < n -> j < n -> item g [i; j] = zero) /\
      trace_C g n = zero /\
      ~ density_operator g.
Proof.
  intros collab h s n Hg Hn.
  assert (Hitem : forall i j, i < n -> j < n ->
            item (np_zeros (T := C) [n; n]) [i; j] = zero).
  { intros i j Hi Hj. unfold np_zeros.
    now rewrite item_tabulate by now apply in_bounds_2d_intro. }
  assert (Htr : trace_C (np_zeros [n; n]) n = zero).
  { apply Csum_zero. intros i Hi. now apply Hitem. }
  exists (np_zeros [n; n]).
  split; [unfold EH.ground_state; now rewrite Hn, bind_Ok, Hg|].
  split; [reflexivity|]. split; [apply wf_tabulate|].
  split; [exact Hitem|]. split; [exact Htr|].
  intros (n' & Hs & _ & _ & _ & Htr').
  injection Hs as <-. rewrite Htr in Htr'.
  apply (f_equal Re) in Htr'. simpl in Htr'. lra.
Qed.

Lemma ground_state_without_ground_manifold_witness :
  exists g,
    EH.ground_state (collab := sample_collaborators) sample_electronic "e" = Ok g /\
    trace_C g 2 = zero.
Proof.
  destruct (ground_state_without_ground_manifold sample_collaborators
              sample_electronic "e" 2 eq_refl eq_refl)
    as (g & Hg & _ & _ & _ & Htr & _).
  exists g. now split.
Defined.

(* ================================================================== *)
(** * Rotating frames compose *)
(* ================================================================== *)

(** Going to the frame [f] and from there to the frame [g] is going to
    the frame [g] directly: the last frequency wins, and nothing else of
    the first transform is left. *)
Theorem in_rotating_frame_compose :
  forall (collab : Collaborators) (h : EH.t) (n : nat) (f g : R),
    shape (EH.H_1exc h) = [n; n] ->
    wf (EH.H_1exc h) ->
    exists h1 h2,
      EH.in_rotating_frame h (Some f) = Ok h1 /\
      EH.in_rotating_frame h1 (Some g) = Ok h2 /\
      EH.in_rotating_frame h (Some g) = Ok h2.
Proof.
  intros collab h n f g Hs Hwf.
  destruct (in_rotating_frame_at h n f Hs) as (M1 & _ & Hrf1 & Hs1 & Hwf1 & Hitem1).
  set (h1 := EH.init M1 f (EH.bath h) (EH.dipoles h) (EH.energy_spread_extra h)) in *.
  destruct (in_rotating_frame_at h1 n g Hs1) as (M2 & _ & Hrf2 & Hs2 & Hwf2 & Hitem2).
  destruct (in_rotating_frame_at h n g Hs) as (M3 & _ & Hrf3 & Hs3 & Hwf3 & Hitem3).
  exists h1. eexists. split; [exact Hrf1|]. split; [exact Hrf2|].
  rewrite Hrf3. simpl. f_equal. f_equal.
  apply ndarray_ext; [assumption | assumption | congruence |].
  intros idx Hb. rewrite Hs3 in Hb.
  destruct (in_bounds_2d _ _ _ Hb) as (-> & Hi & Hj).
  rewrite Hitem3, Hitem2, Hitem1 by assumption. simpl. ring.
Qed.

Lemma in_rotating_frame_compose_witness :
  exists h1 h2,
    EH.in_rotating_frame (collab := sample_collaborators) sample_electronic (Some 5%R)
      = Ok h1 /\
    EH.in_rotating_frame (collab := sample_collaborators) h1 (Some 7%R) = Ok h2 /\
    EH.in_rotating_frame (collab := sample_collaborators) sample_electronic (Some 7%R)
      = Ok h2.
Proof.
  exact (in_rotating_frame_compose sample_collaborators sample_electronic 2 5%R 7%R
           eq_refl eq_refl).
Defined.

(** The frame at the Hamiltonian's own [energy_offset] changes nothing:
    the transform returns a Hamiltonian with the fields of the original. *)
Theorem in_rotating_frame_own_offset :
  forall (collab : Collaborators) (h : EH.t) (n : nat),
    shape (EH.H_1exc h) = [n; n] ->
    wf (EH.H_1exc h) ->
    EH.in_rotating_frame h (Some (EH.energy_offset h))
    = Ok (EH.init (EH.H_1exc h) (EH.energy_offset h) (EH.bath h) (EH.dipoles h)
                  (EH.energy_spread_extra h)).
Proof.
  intros collab h n Hs Hwf.
  destruct (in_rotating_frame_at h n (EH.energy_offset h) Hs)
    as (M & _ & Hrf & HsM & HwfM & Hitem).
  rewrite Hrf. f_equal. f_equal.
  apply ndarray_ext; [assumption | assumption | congruence |].
  intros idx Hb. rewrite HsM in Hb.
  destruct (in_bounds_2d _ _ _ Hb) as (-> & Hi & Hj).
  rewrite Hitem by assumption. ring.
Qed.

Lemma in_rotating_frame_own_offset_witness :
  EH.in_rotating_frame (collab := sample_collaborators) sample_electronic (Some 0%R)
  = Ok sample_electronic.
Proof.
  exact (in_rotating_frame_own_offset sample_collaborators sample_electronic 2
           eq_refl eq_refl).
Defined.

(* ================================================================== *)
(** * The central frequency *)
(* ================================================================== *)





(* ================================================================== *)
(** * The vibronic Hamiltonian in a rotating frame *)
(* ================================================================== *)

(** [in_rotating_frame] of a vibronic Hamiltonian transforms the wrapped
    electronic Hamiltonian and nothing else: the new instance wraps the
    transformed electronic Hamiltonian, repeats its [energy_offset],
    [energy_spread_extra] and [bath], keeps the number of sites and the
    vibrational fields, and so has the same [H_vibrational]. *)
Theorem vibronic_in_rotating_frame :
  forall (collab : Collaborators) (vh : VH.t) (n : nat) (f : R),
    shape (EH.H_1exc (VH.electronic vh)) = [n; n] ->
    exists e' vh',
      EH.in_rotating_frame (VH.electronic vh) (Some f) = Ok e' /\
      VH.in_rotating_frame vh (Some f) = Ok vh' /\
      VH.electronic vh' = e' /\
      VH.energy_offset vh' = f /\
      VH.energy_spread_extra vh' = EH.energy_spread_extra (VH.electronic vh) /\
      VH.bath vh' = EH.bath (VH.electronic vh) /\
      VH.n_sites vh' = n /\
      VH.n_vibrational_levels vh' = VH.n_vibrational_levels vh /\
      VH.vib_energies vh' = VH.vib_energies vh /\
      VH.elec_vib_couplings vh' = VH.elec_vib_couplings vh /\
      VH.n_vibrational_states vh' = VH.n_vibrational_states vh /\
      VH.H_vibrational vh' = VH.H_vibrational vh.
Proof.
  intros collab vh n f Hs.
  destruct (in_rotating_frame_at (VH.electronic vh) n f Hs)
    as (M' & _ & Hrf & Hs' & _ & _).
  do 2 eexists. split; [exact Hrf|]. split.
  - unfold VH.in_rotating_frame. rewrite Hrf, bind_Ok.
    unfold VH.init, EH.n_sites, np_len. simpl. rewrite Hs'. simpl. reflexivity.
  - repeat split.
Qed.

Lemma vibronic_in_rotating_frame_witness :
  exists vh',
    VH.in_rotating_frame (collab := sample_collaborators)
      (sample_vibronic sample_electronic_bath) (Some 5%R) = Ok vh' /\
    VH.energy_offset vh' = 5%R /\ VH.n_sites vh' = 2.
Proof.
  destruct (vibronic_in_rotating_frame sample_collaborators
              (sample_vibronic sample_electronic_bath) 2 5%R eq_refl)
    as (e' & vh' & _ & Hrf & _ & Hoff & _ & _ & Hn & _).
  exists vh'. now repeat split.
Defined.

(* ================================================================== *)
(** * Embedding electronic operators *)
(* ================================================================== *)

Lemma Rsum_add (a b : nat) (f : nat -> R) :
  Rsum (a + b) f = Rplus (Rsum a f) (Rsum b (fun k => f (a + k))).
Proof.
  induction b as [|b IH].
  - rewrite Nat.add_0_r. simpl. ring.
  - rewrite Nat.add_succ_r. simpl. rewrite IH. ring.
Qed.

Lemma Rsum_const (n : nat) (c : R) : Rsum n (fun _ => c) = (INR n * c)%R.
Proof.
  induction n as [|n IH]; [simpl; ring|].
  rewrite S_INR. simpl. rewrite IH. ring.
Qed.

Lemma Rsum_mul_split (p v : nat) (f : nat -> R) :
  Rsum (p * v) f = Rsum p (fun a => Rsum v (fun b => f (a * v + b))).
Proof.
  induction p as [|p IH]; [reflexivity|].
  replace (S p * v) with (p * v + v) by lia.
  rewrite Rsum_add, IH. reflexivity.
Qed.

(** [el_to_sys_operator] keeps what matters of an electronic operator: a
    Hermitian operator stays Hermitian, the trace is multiplied by the
    number of vibrational states, and the vibrational state is left
    alone: entries between different vibrational states vanish. *)
Theorem el_to_sys_operator_embeds :
  forall (vh : VH.t) (a : ndarray R) (n : nat),
    symmetric a n ->
    exists A,
      VH.el_to_sys_operator vh (Arr a) = Ok A /\
      symmetric A (n * VH.n_vibrational_states vh) /\
      np_trace A
      = Ok (INR (VH.n_vibrational_states vh)
            * Rsum n (fun i => item a [i; i]))%R /\
      forall i j,
        i < n * VH.n_vibrational_states vh ->
        j < n * VH.n_vibrational_states vh ->
        i mod VH.n_vibrational_states vh <> j mod VH.n_vibrational_states vh ->
        item A [i; j] = 0%R.
Proof.
  intros vh a n (Hs & Hsym).
  set (v := VH.n_vibrational_states vh).
  set (A := np_kron Rmult a (np_eye v)).
  assert (HsA : shape A = [n * v; n * v])
    by (apply shape_np_kron_2d; [assumption | reflexivity]).
  assert (Hitem : forall i j, i < n * v -> j < n * v ->
            item A [i; j] = Rmult (item a [i / v; j / v]) (delta (i mod v) (j mod v))).
  { intros i j Hi Hj. now apply el_to_sys_operator_entries with n n. }
  exists A. split; [apply el_to_sys_operator_Arr|]. split; [|split].
  - split; [assumption|]. intros i j Hi Hj.
    rewrite !Hitem by assumption.
    rewrite (Hsym (i / v) (j / v)) by now apply div_lt_of_lt_mul.
    now rewrite (delta_sym (i mod v) (j mod v)).
  - rewrite (np_trace_square A (n * v) HsA). f_equal.
    rewrite Rsum_mul_split.
    rewrite (Rsum_ext n _ (fun k => INR v * item a [k; k])%R).
    + now rewrite Rsum_scale.
    + intros k Hk.
      assert (Hv : forall b, b < v -> item A [k * v + b; k * v + b] = item a [k; k]).
      { intros b Hb. rewrite Hitem by nia.
        rewrite Nat.div_add_l, Nat.div_small, Nat.add_0_r by lia.
        rewrite delta_refl. ring. }
      rewrite (Rsum_ext v _ (fun _ => item a [k; k]))
        by (intros b Hb; now apply Hv).
      apply Rsum_const.
  - intros i j Hi Hj Hne. rewrite Hitem by assumption.
    rewrite delta_neq by assumption. ring.
Qed.

Lemma sample_H_1exc_symmetric : symmetric sample_H_1exc 2.
Proof.
  split; [reflexivity|].
  intros [|[|i]] [|[|j]] Hi Hj; try lia; reflexivity.
Qed.

Lemma el_to_sys_operator_embeds_witness :
  exists A,
    VH.el_to_sys_operator
      (sample_vibronic sample_electronic_bath) (Arr sample_H_1exc) = Ok A /\
    symmetric A 4.
Proof.
  destruct (el_to_sys_operator_embeds
              (sample_vibronic sample_electronic_bath) sample_H_1exc 2
              sample_H_1exc_symmetric) as (A & HA & Hsym & _).
  exists A. now split.
Defined.

(** The dipole operator of a vibronic Hamiltonian acts on the electronic
    factor only: when the electronic dipole operator is returned, its
    entry at electronic indices [(i / v, j / v)] appears where the
    vibrational indices [i mod v] and [j mod v] agree, and every entry
    between different vibrational states is zero. *)
Theorem vibronic_dipole_operator_entries :
  forall (collab : Collaborators) (vh : VH.t) (s p t : string)
         (d : ndarray R) (n m : nat),
    EH.dipole_operator (VH.electronic vh) s p t = Ok d ->
    shape d = [n; m] ->
    exists D,
      VH.dipole_operator vh s p t = Ok D /\
      shape D = [n * VH.n_vibrational_states vh; m * VH.n_vibrational_states vh] /\
      forall i j,
        i < n * VH.n_vibrational_states vh ->
        j < m * VH.n_vibrational_states vh ->
        item D [i; j]
        = Rmult (item d [i / VH.n_vibrational_states vh;
                         j / VH.n_vibrational_states vh])
                (delta (i mod VH.n_vibrational_states vh)
                       (j mod VH.n_vibrational_states vh)).
Proof.
  intros collab vh s p t d n m Hd Hs.
  exists (np_kron Rmult d (np_eye (VH.n_vibrational_states vh))).
  split; [|split].
  - unfold VH.dipole_operator. rewrite Hd, bind_Ok. apply el_to_sys_operator_Arr.
  - apply shape_np_kron_2d; [assumption | reflexivity].
  - intros i j Hi Hj. now apply el_to_sys_operator_entries with n m.
Qed.

Lemma sample_dipole_operator_returns :
  exists d,
    EH.dipole_operator (collab := sample_collaborators_dipole)
      sample_electronic_dipoles "ge" "x" "-+" = Ok d /\
    shape d = [3; 3].
Proof. eexists. split; reflexivity. Qed.

Lemma vibronic_dipole_operator_entries_witness :
  exists D,
    VH.dipole_operator (collab := sample_collaborators_dipole)
      (sample_vibronic sample_electronic_dipoles) "ge" "x" "-+" = Ok D /\
    shape D = [6; 6].
Proof.
  destruct sample_dipole_operator_returns as (d & Hd & Hs).
  destruct (vibronic_dipole_operator_entries sample_collaborators_dipole
              (sample_vibronic sample_electronic_dipoles) "ge" "x" "-+" d 3 3 Hd Hs)
    as (D & HD & HsD & _).
  exists D. now split.
Defined.

(** The dimension of the vibronic space is the product of the electronic
    and the vibrational dimension: when the electronic [H(subspace)] is
    an [n] by [n] matrix and the coupling term is returned, [n_states] of
    the vibronic Hamiltonian is [n * n_vibrational_states]. *)
Theorem vibronic_n_states_product :
  forall (collab : Collaborators) (vh : VH.t) (s : string)
         (H_el H_ev : ndarray R) (n : nat),
    EH.H (VH.electronic vh) s = Ok H_el ->
    shape H_el = [n; n] ->
    VH.H_electronic_vibrational vh s = Ok H_ev ->
    VH.n_states vh s = Ok (n * VH.n_vibrational_states vh).
Proof.
  intros collab vh s H_el H_ev n HHel Hs HHev.
  set (v := VH.n_vibrational_states vh).
  destruct (H_vibrational_diagonal vh) as (H_vib & HHvib & _ & (Hsv & _)).
  fold v in Hsv.
  pose proof (El_n_states_of_H _ s H_el n [n] HHel Hs) as Hn.
  destruct (H_electronic_vibrational_shape vh s n H_ev Hn HHev) as [Hsev _].
  fold v in Hsev.
  set (A := np_kron Rmult H_el (np_eye v)).
  set (B := np_kron Rmult (np_eye n) H_vib).
  assert (HsA : shape A = [n * v; n * v])
    by (apply shape_np_kron_2d; [assumption | reflexivity]).
  assert (HsB : shape B = [n * v; n * v])
    by (apply shape_np_kron_2d; [reflexivity | assumption]).
  destruct (np_add_same_shape A B _ _ HsA HsB) as (AB & HAB & HsAB & _).
  destruct (np_add_same_shape AB H_ev _ _ HsAB Hsev) as (M & HM & HsM & _).
  unfold VH.n_states, Hamiltonian.n_states, VH.H.
  rewrite HHel, bind_Ok, el_to_sys_operator_Arr, bind_Ok.
  rewrite HHvib, bind_Ok, (vib_to_sys_operator_Ok vh s H_vib n Hn), bind_Ok.
  fold v. fold A. fold B. rewrite HAB, bind_Ok, HHev, bind_Ok, HM, bind_Ok.
  unfold np_len. now rewrite HsM.
Qed.

Lemma vibronic_n_states_product_witness :
  VH.n_states (collab := sample_collaborators)
    (sample_vibronic sample_electronic_bath) "e" = Ok 4.
Proof.
  destruct sample_H_electronic_vibrational_returns as (H_ev & HHev).
  exact (vibronic_n_states_product sample_collaborators
           (sample_vibronic sample_electronic_bath) "e"
           sample_H_1exc H_ev 2 eq_refl eq_refl HHev).
Defined.

(* ================================================================== *)
(** * Vibrational energies *)
(* ================================================================== *)

Lemma item_np_arange (l k : nat) : k < l -> item (np_arange l) [k] = INR k.
Proof.
  intros Hk. rewrite (item_1d (np_arange l) l k eq_refl). simpl.
  rewrite (nth_indep _ zero (INR 0)) by now rewrite length_map, length_seq.
  now rewrite map_nth, seq_nth.
Qed.

(** The entries of an embedded single-mode operator: the index of a joint
    vibrational state splits into the states of the modes before [m], the
    level of mode [m] and the states of the modes after [m]. *)
Lemma extend_vib_operator_entries (levels : list nat) (m l : nat) (op : ndarray R) :
  nth_error levels m = Some l ->
  shape op = [l; l] ->
  exists X,
    extend_vib_operator levels m op = Ok X /\ wf X /\
    shape X = [np_prod levels; np_prod levels] /\
    forall i j, i < np_prod levels -> j < np_prod levels ->
      item X [i; j]
      = Rmult (Rmult (delta (i / np_prod (skipn (S m) levels) / l)
                            (j / np_prod (skipn (S m) levels) / l))
                     (item op [(i / np_prod (skipn (S m) levels)) mod l;
                               (j / np_prod (skipn (S m) levels)) mod l]))
              (delta (i mod np_prod (skipn (S m) levels))
                     (j mod np_prod (skipn (S m) levels))).
Proof.
  intros Hnth Hop. unfold extend_vib_operator, tensor. simpl.
  set (a := np_prod (firstn m levels)).
  set (b := np_prod (skipn (S m) levels)).
  change (np_prod match levels with [] => [] | _ :: l0 => skipn m l0 end) with b.
  assert (HV : np_prod levels = a * l * b) by now apply np_prod_split.
  set (K := np_kron Rmult (np_eye a) op).
  assert (HsK : shape K = [a * l; a * l])
    by (apply shape_np_kron_2d; [reflexivity | assumption]).
  eexists. split; [reflexivity|]. split; [apply wf_np_kron|]. split.
  - rewrite HV. apply shape_np_kron_2d; [assumption | reflexivity].
  - intros i j Hi Hj. rewrite HV in Hi, Hj.
    rewrite (item_np_kron_2d Rmult K (np_eye b) (a * l) (a * l) b b i j HsK eq_refl Hi Hj).
    assert (Hib : i / b < a * l) by now apply div_lt_of_lt_mul.
    assert (Hjb : j / b < a * l) by now apply div_lt_of_lt_mul.
    unfold K.
    rewrite (item_np_kron_2d Rmult (np_eye a) op a a l l (i / b) (j / b)
               eq_refl Hop Hib Hjb).
    rewrite !item_np_identity;
      [reflexivity
      | now apply mod_lt_of_lt_mul with (a * l)
      | now apply mod_lt_of_lt_mul with (a * l)
      | now apply div_lt_of_lt_mul
      | now apply div_lt_of_lt_mul].
Qed.

Lemma foldM_cons {A B : Type} (f : A -> B -> result A) (x : B) (l : list B) (a : A) :
  foldM f (x :: l) a = (a' <- f a x ;; foldM f l a').
Proof. reflexivity. Qed.

Lemma sum_list_cons (x : R) (l : list R) :
  sum_list (x :: l) = Rplus x (sum_list l).
Proof. reflexivity. Qed.

Section VibrationalEnergies.
Context `{collab : Collaborators}.

Lemma H_vibrational_loop (levels : list nat)
    (items : list (nat * (nat * R))) (H0 : ndarray R) :
  (forall m l en, In (m, (l, en)) items -> nth_error levels m = Some l) ->
  wf H0 -> diagonal H0 (np_prod levels) ->
  exists H',
    foldM (fun H_vib '(m, (num_levels, vib_energy)) =>
             vib_operator <- np_diag (np_arange num_levels) ;;
             X <- extend_vib_operator levels m vib_operator ;;
             np_iadd H_vib (np_scale vib_energy X))
          items H0 = Ok H' /\
    wf H' /\ diagonal H' (np_prod levels) /\
    forall i, i < np_prod levels ->
      item H' [i; i]
      = Rplus (item H0 [i; i])
          (sum_list (map (fun '(m, (l, en)) =>
                            Rmult en (INR ((i / np_prod (skipn (S m) levels)) mod l)))
                         items)).
Proof.
  revert H0. induction items as [|[m [l en]] items IH]; intros H0 Hitems Hwf0 Hd0.
  - exists H0. simpl. repeat split; try assumption; try apply Hd0.
    intros i _. ring.
  - assert (Hl : nth_error levels m = Some l) by (apply (Hitems m l en); now left).
    rewrite foldM_cons. cbv beta iota.
    destruct (np_diag_1d (np_arange l) l eq_refl) as (op & -> & Hwfop & Hdop & Hopd).
    rewrite bind_Ok.
    destruct Hdop as (Hsop & Hdop).
    destruct (extend_vib_operator_entries levels m l op Hl Hsop)
      as (X & -> & HwfX & HsX & HitemX).
    rewrite bind_Ok.
    assert (HdX : diagonal X (np_prod levels)).
    { split; [assumption|]. intros i j Hi Hj Hne. rewrite HitemX by assumption.
      set (b := np_prod (skipn (S m) levels)).
      destruct (Nat.eq_dec (i mod b) (j mod b)) as [Hr|Hr];
        [|rewrite (delta_neq (i mod b) (j mod b)) by assumption; ring].
      assert (Hq : i / b <> j / b).
      { intros Hq. apply Hne.
        rewrite (Nat.div_mod_eq i b), (Nat.div_mod_eq j b). now rewrite Hq, Hr. }
      destruct (Nat.eq_dec (i / b / l) (j / b / l)) as [Hq2|Hq2];
        [|rewrite (delta_neq (i / b / l) (j / b / l)) by assumption; ring].
      rewrite Hdop; [ring | | |].
      - apply Nat.mod_upper_bound. intros ->.
        rewrite (np_prod_split levels m 0 Hl) in Hi. lia.
      - apply Nat.mod_upper_bound. intros ->.
        rewrite (np_prod_split levels m 0 Hl) in Hi. lia.
      - intros Hr2. apply Hq.
        rewrite (Nat.div_mod_eq (i / b) l), (Nat.div_mod_eq (j / b) l).
        now rewrite Hq2, Hr2. }
    destruct (diagonal_np_scale en X _ HwfX HdX) as [HwfS HdS].
    destruct (diagonal_np_iadd H0 (np_scale en X) _ Hd0 HdS)
      as (H1 & -> & HwfH1 & HdH1 & HitemH1).
    rewrite bind_Ok.
    destruct (IH H1) as (H' & HH' & HwfH' & HdH' & HitemH');
      [intros m' l' en' Hin; apply (Hitems m' l' en'); now right | assumption | assumption |].
    exists H'. split; [exact HH'|]. split; [assumption|]. split; [assumption|].
    intros i Hi. rewrite HitemH', HitemH1 by assumption.
    rewrite map_cons, sum_list_cons. cbv beta iota.
    unfold np_scale. rewrite item_np_map;
      [| assumption | rewrite HsX; now apply in_bounds_2d_intro].
    rewrite HitemX by assumption. rewrite !delta_refl.
    rewrite Hopd.
    + rewrite item_np_arange; [ring|].
      apply Nat.mod_upper_bound. intros ->.
      rewrite (np_prod_split levels m 0 Hl) in Hi. lia.
    + apply Nat.mod_upper_bound. intros ->.
      rewrite (np_prod_split levels m 0 Hl) in Hi. lia.
Qed.
End VibrationalEnergies.

Lemma H_vibrational_entries :
  forall (vh : VH.t),
    exists H_vib,
      VH.H_vibrational vh = Ok H_vib /\
      wf H_vib /\
      diagonal H_vib (VH.n_vibrational_states vh) /\
      forall i, i < VH.n_vibrational_states vh ->
        item H_vib [i; i]
        = sum_list
            (map (fun '(m, (l, en)) =>
                    Rmult en
                      (INR ((i / np_prod (skipn (S m) (VH.n_vibrational_levels vh)))
                            mod l)))
                 (enumerate (combine (VH.n_vibrational_levels vh)
                                     (VH.vib_energies vh)))).
Proof.
  intros vh. unfold VH.H_vibrational.
  destruct (np_diag_1d (np_zeros [VH.n_vibrational_states vh])
              (VH.n_vibrational_states vh) eq_refl) as (H0 & -> & Hwf0 & Hd0 & Hitem0).
  rewrite bind_Ok.
  destruct (H_vibrational_loop (VH.n_vibrational_levels vh)
              (enumerate (combine (VH.n_vibrational_levels vh) (VH.vib_energies vh)))
              H0) as (H' & HH' & Hwf' & Hd' & Hitem').
  - intros m l en Hin. apply in_enumerate in Hin.
    now apply nth_error_combine in Hin.
  - assumption.
  - assumption.
  - exists H'. split; [exact HH'|]. split; [assumption|]. split; [assumption|].
    intros i Hi. rewrite Hitem' by assumption.
    rewrite Hitem0 by assumption. unfold np_zeros.
    rewrite item_tabulate by (simpl; apply Nat.ltb_lt in Hi; now rewrite Hi).
    unfold zero, Zero_R. ring.
Qed.

(** [H_vibrational] always returns, and what it returns is the diagonal
    matrix of the vibrational energies: the energy of the joint state [i]
    is the sum over the modes of [vib_energy * level], where the level of
    mode [m] in state [i] is [(i / (number of states of the later modes))
    mod num_levels], the first mode being the most significant.  Modes
    without an energy, or energies without a mode, are left out. *)
Theorem H_vibrational_energies :
  forall (vh : VH.t),
    exists H_vib,
      VH.H_vibrational vh = Ok H_vib /\
      wf H_vib /\
      diagonal H_vib (VH.n_vibrational_states vh) /\
      forall i, i < VH.n_vibrational_states vh ->
        item H_vib [i; i]
        = sum_list
            (map (fun '(m, (l, en)) =>
                    Rmult en
                      (INR ((i / np_prod (skipn (S m) (VH.n_vibrational_levels vh)))
                            mod l)))
                 (enumerate (combine (VH.n_vibrational_levels vh)
                                     (VH.vib_energies vh)))).
Proof. exact H_vibrational_entries. Qed.

Lemma H_vibrational_energies_witness :
  exists H_vib,
    VH.H_vibrational (sample_vibronic sample_electronic_bath) = Ok H_vib /\
    item H_vib [1; 1] = (1 * INR 1 + 0)%R.
Proof.
  destruct (H_vibrational_energies (sample_vibronic sample_electronic_bath))
    as (H_vib & HH & _ & _ & Hitem).
  exists H_vib. split; [exact HH|].
  rewrite (Hitem 1) by (unfold VH.n_vibrational_states; simpl; lia).
  reflexivity.
Defined.

(** The energy of the vibrational ground state is zero: the entry of
    [H_vibrational] at the state in which every mode is in level 0
    vanishes, whatever the energies of the modes. *)
Theorem H_vibrational_ground_energy_zero :
  forall (vh : VH.t),
    0 < VH.n_vibrational_states vh ->
    exists H_vib,
      VH.H_vibrational vh = Ok H_vib /\ item H_vib [0; 0] = 0%R.
Proof.
  intros vh Hv.
  destruct (H_vibrational_entries vh) as (H_vib & HH & _ & _ & Hitem).
  exists H_vib. split; [exact HH|]. rewrite (Hitem 0 Hv). clear Hitem.
  induction (enumerate (combine (VH.n_vibrational_levels vh) (VH.vib_energies vh)))
    as [|[m [l en]] items IH]; [reflexivity|].
  rewrite map_cons, sum_list_cons, IH. cbv beta iota.
  rewrite Nat.Div0.div_0_l, Nat.Div0.mod_0_l. simpl. ring.
Qed.

Lemma H_vibrational_ground_energy_zero_witness :
  exists H_vib,
    VH.H_vibrational (sample_vibronic sample_electronic_bath) = Ok H_vib /\
    item H_vib [0; 0] = 0%R.
Proof.
  apply (H_vibrational_ground_energy_zero (sample_vibronic sample_electronic_bath)).
  unfold VH.n_vibrational_states. simpl. lia.
Defined.

(* ================================================================== *)
(** * Boltzmann weights *)
(* ================================================================== *)

Section Boltzmann.
Context `{collab : Collaborators}.

(** The partition sum of a diagonal Hamiltonian. *)
Lemma thermal_state_weights (H : ndarray R) (v : nat) (T : R) :
  expm_exact_on_diagonal ->
  wf H -> diagonal H v -> 0 < v ->
  exists rho,
    thermal_state H T = Ok rho /\ shape rho = [v; v] /\ wf rho /\
    (0 < Rsum v (fun k => exp (- item H [k; k] / T)))%R /\
    forall i j, i < v -> j < v ->
      item rho [i; j]
      = (delta i j * (exp (- item H [i; i] / T)
                      / Rsum v (fun k => exp (- item H [k; k] / T))))%R.
Proof.
  intros Hexpm Hwf Hdiag Hv.
  destruct (diagonal_np_map Ropp H v Ropp_0 Hwf Hdiag) as (Hwf1 & Hd1 & Hitem1).
  assert (Hdiv0 : (0 / T = 0)%R) by (unfold Rdiv; ring).
  destruct (diagonal_np_map (fun x => (x / T)%R) (np_neg H) v Hdiv0 Hwf1 Hd1)
    as (Hwf2 & Hd2 & Hitem2).
  set (D := np_div (np_neg H) T) in *.
  assert (HD : forall i, i < v -> item D [i; i] = (- item H [i; i] / T)%R).
  { intros i Hi. unfold D, np_div. rewrite Hitem2 by assumption.
    unfold np_neg. now rewrite Hitem1. }
  unfold thermal_state. fold D. rewrite (Hexpm D v Hwf2 Hd2). simpl lift.
  rewrite bind_Ok.
  set (rho := exp_diagonal D v).
  rewrite (np_trace_square rho v eq_refl), bind_Ok.
  assert (Hrho : forall i j, i < v -> j < v ->
            item rho [i; j] = (delta i j * exp (- item H [i; i] / T))%R).
  { intros i j Hi Hj. unfold rho, exp_diagonal.
    rewrite item_tabulate by now apply in_bounds_2d_intro.
    unfold ix0, ix1. simpl. now rewrite HD. }
  assert (Htr : Rsum v (fun i => item rho [i; i])
                = Rsum v (fun k => exp (- item H [k; k] / T))).
  { apply Rsum_ext. intros i Hi. rewrite Hrho, delta_refl by assumption. ring. }
  rewrite Htr.
  set (Z := Rsum v (fun k => exp (- item H [k; k] / T))).
  eexists. split; [reflexivity|]. split; [reflexivity|].
  split; [apply wf_np_map, wf_tabulate|]. split.
  - apply Rsum_pos; [assumption|]. intros i _. apply exp_pos.
  - intros i j Hi Hj. unfold np_div.
    rewrite item_np_map; [| apply wf_tabulate | now apply in_bounds_2d_intro].
    rewrite Hrho by assumption. unfold Rdiv. ring.
Qed.
End Boltzmann.



(** The thermal state does not depend on the zero of energy: shifting a
    diagonal Hamiltonian by a multiple of the identity gives the same
    thermal state. *)
Theorem thermal_state_shift_invariant :
  forall (collab : Collaborators) (H : ndarray R) (v : nat) (T c : R),
    expm_exact_on_diagonal ->
    wf H -> diagonal H v -> 0 < v -> T <> 0%R ->
    exists H' rho,
      np_add H (np_scale c (np_identity v)) = Ok H' /\
      thermal_state H T = Ok rho /\
      thermal_state H' T = Ok rho.
Proof.
  intros collab H v T c Hexpm Hwf Hdiag Hv HT.
  pose proof Hdiag as (Hs & Hd).
  destruct (np_add_same_shape H (np_scale c (np_identity v)) v v Hs eq_refl)
    as (H' & HH' & Hs' & Hwf' & Hitem').
  assert (Hentry : forall i j, i < v -> j < v ->
            item H' [i; j] = (item H [i; j] + c * delta i j)%R).
  { intros i j Hi Hj. rewrite Hitem' by assumption. unfold np_scale.
    rewrite item_np_map; [| apply wf_tabulate | now apply in_bounds_2d_intro].
    now rewrite item_np_identity. }
  assert (Hdiag' : diagonal H' v).
  { split; [assumption|]. intros i j Hi Hj Hne.
    rewrite Hentry, (Hd i j), delta_neq by assumption. ring. }
  destruct (thermal_state_weights H v T Hexpm Hwf Hdiag Hv)
    as (rho & Hth & Hsr & Hwfr & HZ & Hitem).
  destruct (thermal_state_weights H' v T Hexpm Hwf' Hdiag' Hv)
    as (rho' & Hth' & Hsr' & Hwfr' & HZ' & Hitemr').
  exists H', rho. split; [assumption|]. split; [assumption|].
  rewrite Hth'. f_equal.
  apply ndarray_ext; [assumption | assumption | congruence |].
  intros idx Hb. rewrite Hsr' in Hb.
  destruct (in_bounds_2d _ _ _ Hb) as (-> & Hi & Hj).
  rewrite Hitem, Hitemr' by assumption. f_equal.
  assert (Hexp : forall k, k < v ->
            exp (- item H' [k; k] / T)
            = (exp (- c / T) * exp (- item H [k; k] / T))%R).
  { intros k Hk. rewrite Hentry, delta_refl by assumption.
    rewrite <- exp_plus. f_equal. field. assumption. }
  rewrite (Rsum_ext v (fun k => exp (- item H' [k; k] / T))
             (fun k => exp (- c / T) * exp (- item H [k; k] / T))%R)
    in * by assumption.
  rewrite Rsum_scale in *. rewrite Hexp by assumption.
  pose proof (exp_pos (- c / T)). field. split; lra.
Qed.

Lemma thermal_state_shift_invariant_witness :
  exists H' rho,
    np_add (EH.H_1exc sample_diagonal_electronic) (np_scale 5 (np_identity 2))
      = Ok H' /\
    thermal_state (collab := sample_collaborators)
      (EH.H_1exc sample_diagonal_electronic) 1 = Ok rho /\
    thermal_state (collab := sample_collaborators) H' 1 = Ok rho.
Proof.
  apply (thermal_state_shift_invariant sample_collaborators
           (EH.H_1exc sample_diagonal_electronic) 2 1%R 5%R).
  - apply sample_expm_exact.
  - reflexivity.
  - apply sample_diagonal_is_diagonal.
  - lia.
  - lra.
Defined.

(* ================================================================== *)
(** * The vibronic ground state, entry by entry *)
(* ================================================================== *)

(** The ground state of a vibronic Hamiltonian puts all population in the
    electronic ground state and distributes it thermally over the
    vibrational states: the block of the first [v] rows and columns ([v]
    the number of vibrational states) is the diagonal matrix of the
    Boltzmann weights of [H_vibrational], and every other entry is 0. *)
Theorem vibronic_ground_state_entries :
  forall (collab : Collaborators) (vh : VH.t) (s : string) (n : nat) (b : Bath),
    str_in "g" s = true ->
    EH.n_states (VH.electronic vh) s = Ok n -> 0 < n ->
    VH.bath vh = Some b ->
    temperature b <> 0%R ->
    Forall (lt 0) (VH.n_vibrational_levels vh) ->
    expm_exact_on_diagonal ->
    exists H_vib rho,
      VH.H_vibrational vh = Ok H_vib /\
      VH.ground_state vh s = Ok rho /\
      shape rho = [n * VH.n_vibrational_states vh; n * VH.n_vibrational_states vh] /\
      forall i j,
        i < n * VH.n_vibrational_states vh ->
        j < n * VH.n_vibrational_states vh ->
        item rho [i; j]
        = if (i <? VH.n_vibrational_states vh) && (j <? VH.n_vibrational_states vh)
          then RtoC (delta i j
                     * (exp (- item H_vib [i; i] / temperature b)
                        / Rsum (VH.n_vibrational_states vh)
                            (fun k => exp (- item H_vib [k; k] / temperature b))))%R
          else zero.
Proof.
  intros collab vh s n b Hg Hn Hpos Hbath _ Hlevels Hexpm.
  set (v := VH.n_vibrational_states vh).
  assert (Hv : 0 < v) by now apply np_prod_pos.
  destruct (El_ground_state_entries _ s n Hg Hn Hpos) as (g & Hgs & Hsg & Hwfg & Hitemg).
  destruct (H_vibrational_diagonal vh) as (H_vib & HHvib & Hwfv & Hdv).
  destruct (thermal_state_weights H_vib v (temperature b) Hexpm Hwfv Hdv Hv)
    as (th & Hth & Hsth & _ & _ & Hitemth).
  exists H_vib, (np_kron Cscale g th).
  split; [assumption|]. split; [|split].
  - unfold VH.ground_state. rewrite Hgs, bind_Ok, HHvib, bind_Ok, Hbath, bind_Ok.
    now rewrite Hth.
  - now apply shape_np_kron_2d.
  - intros i j Hi Hj.
    rewrite (item_np_kron_2d Cscale g th n n v v i j Hsg Hsth Hi Hj).
    rewrite Hitemg by now apply div_lt_of_lt_mul.
    rewrite Hitemth by now apply mod_lt_of_lt_mul with n.
    destruct (Nat.ltb_spec i v) as [Hiv|Hiv].
    + rewrite (Nat.div_small i v Hiv), (Nat.mod_small i v Hiv). simpl.
      destruct (Nat.ltb_spec j v) as [Hjv|Hjv].
      * rewrite (Nat.div_small j v Hjv), (Nat.mod_small j v Hjv). simpl.
        apply C_eq; simpl; ring.
      * assert (Hq : j / v <> 0) by (intros Hq; apply Nat.div_small_iff in Hq; lia).
        destruct (Nat.eqb_spec (j / v) 0) as [|_]; [contradiction|].
        apply C_eq; simpl; ring.
    + assert (Hq : i / v <> 0) by (intros Hq; apply Nat.div_small_iff in Hq; lia).
      destruct (Nat.eqb_spec (i / v) 0) as [|_]; [contradiction|]. simpl.
      apply C_eq; simpl; ring.
Qed.

Lemma vibronic_ground_state_entries_witness :
  exists rho,
    VH.ground_state (collab := sample_collaborators)
      (sample_vibronic sample_electronic_bath) "g" = Ok rho /\
    shape rho = [2; 2].
Proof.
  destruct (vibronic_ground_state_entries sample_collaborators
              (sample_vibronic sample_electronic_bath) "g" 1 (mk_Bath 1))
    as (H_vib & rho & _ & Hrho & Hs & _).
  - reflexivity.
  - reflexivity.
  - lia.
  - reflexivity.
  - simpl. lra.
  - repeat constructor.
  - apply sample_expm_exact.
  - exists rho. split; [assumption | exact Hs].
Defined.

(* ================================================================== *)
(** * The electronic coupling operators *)
(* ================================================================== *)

Lemma mapM_seq_inv {B : Type} (f : nat -> result B) (len start : nat)
    (ys : list B) (d : B) :
  mapM f (seq start len) = Ok ys ->
  length ys = len /\
  forall i, i < len -> f (start + i) = Ok (nth i ys d).
Proof.
  revert start ys. induction len as [|len IH]; intros start ys; simpl.
  - intros [= <-]. split; [reflexivity | intros; lia].
  - destruct (f start) as [y|e] eqn:Hy; [|discriminate]. rewrite bind_Ok.
    destruct (mapM f (seq (S start) len)) as [ys'|e] eqn:Hys; [|discriminate].
    rewrite bind_Ok. intros [= <-].
    destruct (IH (S start) ys' Hys) as [Hlen Hnth].
    split; [simpl; now rewrite Hlen|].
    intros [|i] Hi; simpl.
    + now rewrite Nat.add_0_r.
    + replace (start + S i) with (S start + i) by lia. apply Hnth. lia.
Qed.

(** With a bath, [system_bath_couplings] of an electronic Hamiltonian is
    all or nothing: it returns a list exactly when the number operator of
    every site is returned, and the list then holds these operators, one
    per site, in the order of the sites. *)
Theorem system_bath_couplings_all_sites :
  forall (collab : Collaborators) (h : EH.t) (s : string) (b : Bath) (n : nat)
         (l : list (ndarray R)),
    EH.bath h = Some b ->
    EH.n_sites h = Ok n ->
    (EH.system_bath_couplings h s = Ok l
     <-> length l = n /\
         forall k, k < n -> EH.number_operator h k s = Ok (nth k l (np_zeros []))).
Proof.
  intros collab h s b n l Hbath Hn.
  unfold EH.system_bath_couplings. rewrite Hbath, Hn, bind_Ok. split.
  - intros Hmap.
    destruct (mapM_seq_inv (fun k => EH.number_operator h k s) n 0 l (np_zeros []) Hmap)
      as [Hlen Hnth].
    split; [assumption|]. intros k Hk. now apply (Hnth k).
  - intros [Hlen Hnth].
    destruct (mapM_seq_ok (fun k => EH.number_operator h k s) (fun _ => True) n
                (np_zeros [])) as (ys & Hys & Hlen' & Hnth').
    + intros k Hk. eexists. split; [now apply Hnth | exact I].
    + rewrite Hys. f_equal.
      apply (nth_ext _ _ (np_zeros []) (np_zeros [])); [congruence|].
      intros k Hk. rewrite Hlen' in Hk.
      destruct (Hnth' k Hk) as [Hk' _]. rewrite (Hnth k Hk) in Hk'.
      now injection Hk'.
Qed.

Lemma system_bath_couplings_all_sites_witness :
  exists l,
    EH.system_bath_couplings (collab := sample_collaborators)
      sample_electronic_bath "e" = Ok l /\ length l = 2.
Proof.
  destruct (EH.system_bath_couplings (collab := sample_collaborators)
              sample_electronic_bath "e") as [l|e] eqn:Hl; [|discriminate].
  exists l. split; [reflexivity|].
  apply (system_bath_couplings_all_sites sample_collaborators
           sample_electronic_bath "e" (mk_Bath 1) 2 l eq_refl eq_refl).
  exact Hl.
Defined.

Section NumberOperators.
Context `{collab : Collaborators}.

Lemma number_operator_e_entries (h : EH.t) (n k : nat) :
  extend_e_unchanged ->
  EH.n_sites h = Ok n ->
  k < n ->
  exists N,
    EH.number_operator h k "e" = Ok N /\
    shape N = [n; n] /\
    forall i j, i < n -> j < n -> item N [i; j] = (delta i j * delta i k)%R.
Proof.
  intros Hext Hn Hk.
  eexists. split; [|split].
  - unfold EH.number_operator. rewrite Hn, bind_Ok. unfold unit_vec.
    apply Nat.ltb_lt in Hk. rewrite Hk. simpl lift. rewrite bind_Ok.
    unfold np_diag. simpl. rewrite Hext. reflexivity.
  - reflexivity.
  - intros i j Hi Hj.
    rewrite item_tabulate by now apply in_bounds_2d_intro.
    unfold ix0, ix1. simpl.
    rewrite (item_tabulate [n] _ [i])
      by (simpl; apply Nat.ltb_lt in Hi; now rewrite Hi).
    reflexivity.
Qed.
End NumberOperators.

(** In the singly-excited subspace the number operator of a site is the
    projector on that site: a diagonal matrix with a single 1 at the
    site.  The number operators of all sites add up to the identity. *)
Theorem number_operators_resolve_identity :
  forall (collab : Collaborators) (h : EH.t) (n : nat),
    extend_e_unchanged ->
    EH.n_sites h = Ok n ->
    (forall k, k < n ->
       exists N,
         EH.number_operator h k "e" = Ok N /\
         shape N = [n; n] /\
         forall i j, i < n -> j < n ->
           item N [i; j] = (delta i j * delta i k)%R) /\
    forall (Ns : nat -> ndarray R),
      (forall k, k < n -> EH.number_operator h k "e" = Ok (Ns k)) ->
      forall i j, i < n -> j < n ->
        Rsum n (fun k => item (Ns k) [i; j]) = delta i j.
Proof.
  intros collab h n Hext Hn. split.
  - intros k Hk. now apply number_operator_e_entries.
  - intros Ns HNs i j Hi Hj.
    rewrite (Rsum_ext n _ (fun k => delta i k * delta i j)%R).
    + rewrite Rsum_delta_l by assumption. reflexivity.
    + intros k Hk.
      destruct (number_operator_e_entries h n k Hext Hn Hk) as (N & HN & _ & Hitem).
      rewrite (HNs k Hk) in HN. injection HN as <-.
      rewrite Hitem by assumption. ring.
Qed.

Lemma number_operators_resolve_identity_witness :
  exists N,
    EH.number_operator (collab := sample_collaborators) sample_electronic 1 "e"
      = Ok N /\
    item N [1; 1] = (delta 1 1 * delta 1 1)%R.
Proof.
  destruct (number_operators_resolve_identity sample_collaborators
              sample_electronic 2) as (HNs & _).
  - intros M. reflexivity.
  - reflexivity.
  - destruct (HNs 1) as (N & Hop & _ & Hitem); [lia|].
    exists N. split; [exact Hop | apply Hitem; lia].
Defined.

(* ================================================================== *)
(** * A vibronic Hamiltonian without vibrational modes *)
(* ================================================================== *)

Lemma np_add_zero_r (a z : ndarray R) (n : nat) :
  shape a = [n; n] -> wf a -> shape z = [n; n] ->
  (forall i j, i < n -> j < n -> item z [i; j] = 0%R) ->
  np_add a z = Ok a.
Proof.
  intros Ha Hwf Hz Hzero.
  destruct (np_add_same_shape a z n n Ha Hz) as (c & -> & Hsc & Hwfc & Hitem).
  f_equal. apply ndarray_ext; [assumption | assumption | congruence |].
  intros idx Hb. rewrite Hsc in Hb.
  destruct (in_bounds_2d _ _ _ Hb) as (-> & Hi & Hj).
  rewrite Hitem, Hzero by assumption. ring.
Qed.

Lemma np_kron_eye_1 (a : ndarray R) (n : nat) :
  shape a = [n; n] -> wf a -> np_kron Rmult a (np_eye 1) = a.
Proof.
  intros Ha Hwf.
  assert (Hs : shape (np_kron Rmult a (np_eye 1)) = [n * 1; n * 1])
    by (apply shape_np_kron_2d; [assumption | reflexivity]).
  rewrite !Nat.mul_1_r in Hs.
  apply ndarray_ext; [apply wf_np_kron | assumption | congruence |].
  intros idx Hb. rewrite Hs in Hb.
  destruct (in_bounds_2d _ _ _ Hb) as (Heq & Hi & Hj). rewrite Heq.
  rewrite (item_np_kron_2d Rmult a (np_eye 1) n n 1 1 (ix0 idx) (ix1 idx) Ha eq_refl)
    by lia.
  rewrite !Nat.div_1_r, !Nat.mod_1_r.
  rewrite item_np_identity by lia. rewrite delta_refl. ring.
Qed.

(** Without vibrational modes the vibronic Hamiltonian is the electronic
    one: [n_vibrational_states] is 1, [el_to_sys_operator] returns the
    operator it is given, and, when the number operator of every site is
    returned, [H(subspace)] is the [H(subspace)] of the wrapped electronic
    Hamiltonian. *)
Theorem vibronic_without_modes_is_electronic :
  forall (collab : Collaborators) (vh : VH.t) (s : string)
         (H_el : ndarray R) (n sites : nat),
    VH.n_vibrational_levels vh = [] ->
    EH.H (VH.electronic vh) s = Ok H_el ->
    shape H_el = [n; n] -> wf H_el ->
    EH.n_sites (VH.electronic vh) = Ok sites ->
    (forall k, k < sites ->
       exists A, EH.number_operator (VH.electronic vh) k s = Ok A) ->
    VH.n_vibrational_states vh = 1 /\
    VH.el_to_sys_operator vh (Arr H_el) = Ok H_el /\
    VH.H vh s = Ok H_el.
Proof.
  intros collab vh s H_el n sites Hlevels HHel Hs Hwf Hsites Hops.
  assert (Hv : VH.n_vibrational_states vh = 1)
    by (unfold VH.n_vibrational_states; now rewrite Hlevels).
  assert (Hemb : VH.el_to_sys_operator vh (Arr H_el) = Ok H_el).
  { rewrite el_to_sys_operator_Arr, Hv. f_equal. now apply np_kron_eye_1 with n. }
  split; [assumption|]. split; [assumption|].
  pose proof (El_n_states_of_H _ s H_el n [n] HHel Hs) as Hn.
  (* the vibrational Hamiltonian is the 1 by 1 zero matrix *)
  destruct (np_diag_1d (np_zeros [1]) 1 eq_refl) as (Z1 & HZ1 & _ & (HsZ1 & _) & HdZ1).
  assert (HHvib : VH.H_vibrational vh = Ok Z1).
  { unfold VH.H_vibrational. rewrite Hv, HZ1, bind_Ok, Hlevels. reflexivity. }
  assert (HZ1zero : item Z1 [0; 0] = 0%R).
  { rewrite HdZ1 by lia. unfold np_zeros. now rewrite item_tabulate. }
  (* the coupling term is the zero matrix *)
  destruct (np_diag_1d (np_zeros [n * 1]) (n * 1) eq_refl)
    as (Zn & HZn & _ & (HsZn & HoffZn) & HdZn).
  assert (HZnzero : forall i j, i < n -> j < n -> item Zn [i; j] = 0%R).
  { intros i j Hi Hj. destruct (Nat.eq_dec i j) as [<-|Hne].
    - rewrite HdZn by lia. unfold np_zeros.
      rewrite item_tabulate; [reflexivity|].
      simpl. assert (Hi' : (i <? n * 1) = true) by (apply Nat.ltb_lt; lia).
      now rewrite Hi'.
    - apply HoffZn; lia. }
  assert (HHev : VH.H_electronic_vibrational vh s = Ok Zn).
  { unfold VH.H_electronic_vibrational.
    rewrite Hn, bind_Ok, Hv, HZn, bind_Ok, Hsites, bind_Ok, Hlevels.
    destruct (foldM_invariant
                (fun H_el_vib i =>
                   el_operator <- EH.number_operator (VH.electronic vh) i s ;;
                   foldM (fun H_acc '(m, num_levels) =>
                            a <- lift "vib_annihilate" (vib_annihilate num_levels) ;;
                            c <- lift "vib_create" (vib_create num_levels) ;;
                            vib_operator <- np_add a c ;;
                            c_im <- getitem (VH.elec_vib_couplings vh) [i; m] ;;
                            X <- extend_vib_operator [] m vib_operator ;;
                            Tn <- tensor [Arr el_operator; Arr X] ;;
                            np_iadd H_acc (np_scale c_im Tn))
                         (enumerate []) H_el_vib)
                (fun M => M = Zn) (seq 0 sites) Zn) as (M & HM & ->).
    - intros a0 k Hk ->. apply in_seq in Hk.
      destruct (Hops k) as (A & ->); [lia|]. rewrite bind_Ok.
      exists Zn. now split.
    - reflexivity.
    - exact HM. }
  rewrite Nat.mul_1_r in HsZn.
  unfold VH.H. rewrite HHel, bind_Ok, Hemb, bind_Ok, HHvib, bind_Ok.
  rewrite (vib_to_sys_operator_Ok vh s Z1 n Hn), bind_Ok.
  set (B := np_kron Rmult (np_eye n) Z1).
  assert (HsB : shape B = [n; n]).
  { unfold B. rewrite (shape_np_kron_2d Rmult (np_eye n) Z1 n n 1 1 eq_refl HsZ1).
    now rewrite !Nat.mul_1_r. }
  assert (HBzero : forall i j, i < n -> j < n -> item B [i; j] = 0%R).
  { intros i j Hi Hj. unfold B.
    rewrite (item_np_kron_2d Rmult (np_eye n) Z1 n n 1 1 i j eq_refl HsZ1) by lia.
    rewrite !Nat.mod_1_r, HZ1zero. ring. }
  rewrite (np_add_zero_r H_el B n Hs Hwf HsB HBzero), bind_Ok.
  rewrite HHev, bind_Ok.
  now apply np_add_zero_r with n.
Qed.

Lemma vibronic_without_modes_is_electronic_witness :
  VH.H (collab := sample_collaborators) sample_vibronic_no_modes "e"
  = Ok sample_H_1exc.
Proof.
  apply (vibronic_without_modes_is_electronic sample_collaborators
           sample_vibronic_no_modes "e" sample_H_1exc 2 2); try reflexivity.
  intros [|[|k]] Hk; [| | lia]; eexists; reflexivity.
Defined.

(* ================================================================== *)
(** * The vibronic Hamiltonian is Hermitian *)
(* ================================================================== *)

Lemma symmetric_np_identity (n : nat) : symmetric (np_identity n) n.
Proof.
  split; [reflexivity|]. intros i j Hi Hj.
  rewrite !item_np_identity by assumption. apply delta_sym.
Qed.

Lemma symmetric_np_kron (a b : ndarray R) (p r : nat) :
  symmetric a p -> symmetric b r -> symmetric (np_kron Rmult a b) (p * r).
Proof.
  intros (Ha & Hsa) (Hb & Hsb). split.
  - now apply shape_np_kron_2d.
  - intros i j Hi Hj.
    rewrite (item_np_kron_2d Rmult a b p p r r i j Ha Hb Hi Hj).
    rewrite (item_np_kron_2d Rmult a b p p r r j i Ha Hb Hj Hi).
    rewrite (Hsa (i / r) (j / r)) by now apply div_lt_of_lt_mul.
    rewrite (Hsb (i mod r) (j mod r)) by now apply mod_lt_of_lt_mul with p.
    reflexivity.
Qed.

Lemma symmetric_np_scale (c : R) (a : ndarray R) (n : nat) :
  wf a -> symmetric a n -> wf (np_scale c a) /\ symmetric (np_scale c a) n.
Proof.
  intros Hwf (Hs & Hsym). split; [now apply wf_np_map|]. split; [exact Hs|].
  intros i j Hi Hj. unfold np_scale.
  rewrite !item_np_map by (assumption || (rewrite Hs; now apply in_bounds_2d_intro)).
  now rewrite (Hsym i j).
Qed.

Lemma symmetric_np_add (a b : ndarray R) (n : nat) :
  symmetric a n -> symmetric b n ->
  exists c, np_add a b = Ok c /\ wf c /\ symmetric c n.
Proof.
  intros (Ha & Hsa) (Hb & Hsb).
  destruct (np_add_same_shape a b n n Ha Hb) as (c & Hc & Hsc & Hwfc & Hitem).
  exists c. split; [assumption|]. split; [assumption|]. split; [assumption|].
  intros i j Hi Hj. rewrite !Hitem by assumption.
  now rewrite (Hsa i j), (Hsb i j).
Qed.

Lemma symmetric_np_iadd (a b : ndarray R) (n : nat) :
  symmetric a n -> symmetric b n ->
  exists c, np_iadd a b = Ok c /\ wf c /\ symmetric c n.
Proof.
  intros (Ha & Hsa) (Hb & Hsb). unfold np_iadd.
  rewrite np_ibinop_same_shape by congruence. rewrite Ha.
  eexists. split; [reflexivity|]. split; [apply wf_tabulate|].
  split; [reflexivity|]. intros i j Hi Hj.
  rewrite !item_tabulate by now apply in_bounds_2d_intro.
  now rewrite (Hsa i j), (Hsb i j).
Qed.

Lemma symmetric_extend_vib_operator (levels : list nat) (m l : nat) (op : ndarray R) :
  nth_error levels m = Some l ->
  symmetric op l ->
  exists X, extend_vib_operator levels m op = Ok X /\
            wf X /\ symmetric X (np_prod levels).
Proof.
  intros Hnth Hop. unfold extend_vib_operator, tensor. simpl.
  eexists. split; [reflexivity|]. split; [apply wf_np_kron|].
  rewrite (np_prod_split levels m l Hnth).
  apply symmetric_np_kron; [apply symmetric_np_kron|]; try assumption;
    apply symmetric_np_identity.
Qed.

Section Hermitian.
Context `{collab : Collaborators}.

Lemma H_electronic_vibrational_symmetric (vh : VH.t) (s : string) (n sites : nat) :
  EH.n_states (VH.electronic vh) s = Ok n ->
  EH.n_sites (VH.electronic vh) = Ok sites ->
  (forall k, k < sites ->
     exists A, EH.number_operator (VH.electronic vh) k s = Ok A /\ symmetric A n) ->
  (forall l, In l (VH.n_vibrational_levels vh) -> ladder_pair l) ->
  shape (VH.elec_vib_couplings vh) = [sites; length (VH.n_vibrational_levels vh)] ->
  exists H_ev,
    VH.H_electronic_vibrational vh s = Ok H_ev /\ wf H_ev /\
    symmetric H_ev (n * VH.n_vibrational_states vh).
Proof.
  intros Hn Hsites Hops Hladder Hcoup.
  unfold VH.H_electronic_vibrational. rewrite Hn, bind_Ok.
  set (v := VH.n_vibrational_states vh).
  destruct (np_diag_1d (np_zeros [n * v]) (n * v) eq_refl)
    as (H0 & -> & Hwf0 & Hd0 & _).
  rewrite bind_Ok, Hsites, bind_Ok.
  apply (foldM_invariant _ (fun M => wf M /\ symmetric M (n * v)));
    [|split; [assumption | now apply diagonal_symmetric]].
  intros M i Hi [HwfM HsymM]. apply in_seq in Hi.
  destruct (Hops i) as (el_operator & -> & Hel); [lia|]. rewrite bind_Ok.
  apply (foldM_invariant _ (fun M => wf M /\ symmetric M (n * v))); [|now split].
  clear M HwfM HsymM. intros M [m l] Hin [HwfM HsymM]. cbv beta iota.
  apply in_enumerate in Hin.
  destruct (Hladder l) as (a & c & -> & -> & Hsa & Hsc & Hac);
    [now apply nth_error_In with m|].
  simpl lift. rewrite !bind_Ok.
  destruct (np_add_same_shape a c l l Hsa Hsc) as (op & -> & Hsop & Hwfop & Hitemop).
  rewrite bind_Ok.
  assert (Hsymop : symmetric op l).
  { split; [assumption|]. intros x y Hx Hy. rewrite !Hitemop by assumption.
    rewrite (Hac x y), (Hac y x) by assumption. ring. }
  assert (Hm : m < length (VH.n_vibrational_levels vh))
    by (apply nth_error_Some; congruence).
  unfold getitem. rewrite Hcoup, (in_bounds_2d_intro _ _ i m) by lia.
  rewrite bind_Ok.
  destruct (symmetric_extend_vib_operator _ m l op Hin Hsymop) as (X & -> & HwfX & HsymX).
  rewrite bind_Ok.
  change (tensor [Arr el_operator; Arr X]) with (Ok (np_kron Rmult el_operator X)).
  rewrite bind_Ok.
  pose proof (symmetric_np_kron el_operator X n (np_prod (VH.n_vibrational_levels vh))
                Hel HsymX) as HsymT.
  destruct (symmetric_np_scale
              (item (VH.elec_vib_couplings vh) [i; m])
              (np_kron Rmult el_operator X) _ (wf_np_kron Rmult el_operator X) HsymT)
    as [HwfS HsymS].
  destruct (symmetric_np_iadd M _ _ HsymM HsymS) as (M' & -> & HwfM' & HsymM').
  exists M'. split; [reflexivity | now split].
Qed.
End Hermitian.

(** [H(subspace)] of a vibronic Hamiltonian is returned and is Hermitian
    when the electronic [H(subspace)] and the number operators are
    Hermitian matrices of one size, the creation operator of every mode
    is the transpose of its annihilation operator, and
    [elec_vib_couplings] has one row per site and one column per mode. *)
Theorem vibronic_H_hermitian :
  forall (collab : Collaborators) (vh : VH.t) (s : string)
         (H_el : ndarray R) (n sites : nat),
    EH.H (VH.electronic vh) s = Ok H_el ->
    symmetric H_el n ->
    EH.n_sites (VH.electronic vh) = Ok sites ->
    (forall k, k < sites ->
       exists A, EH.number_operator (VH.electronic vh) k s = Ok A /\ symmetric A n) ->
    (forall l, In l (VH.n_vibrational_levels vh) -> ladder_pair l) ->
    shape (VH.elec_vib_couplings vh) = [sites; length (VH.n_vibrational_levels vh)] ->
    exists M,
      VH.H vh s = Ok M /\
      symmetric M (n * VH.n_vibrational_states vh).
Proof.
  intros collab vh s H_el n sites HHel Hsym Hsites Hops Hladder Hcoup.
  set (v := VH.n_vibrational_states vh).
  pose proof Hsym as (Hs & _).
  pose proof (El_n_states_of_H _ s H_el n [n] HHel Hs) as Hn.
  destruct (H_vibrational_diagonal vh) as (H_vib & HHvib & _ & Hdv).
  destruct (H_electronic_vibrational_symmetric vh s n sites Hn Hsites Hops Hladder Hcoup)
    as (H_ev & HHev & _ & Hsymev).
  pose proof (symmetric_np_kron H_el (np_eye v) n v Hsym (symmetric_np_identity v)) as HsymA.
  pose proof (symmetric_np_kron (np_eye n) H_vib n v (symmetric_np_identity n)
                (diagonal_symmetric H_vib v Hdv)) as HsymB.
  destruct (symmetric_np_add _ _ _ HsymA HsymB) as (AB & HAB & _ & HsymAB).
  destruct (symmetric_np_add _ _ _ HsymAB Hsymev) as (M & HM & _ & HsymM).
  exists M. split; [|assumption].
  unfold VH.H. rewrite HHel, bind_Ok, el_to_sys_operator_Arr, bind_Ok.
  rewrite HHvib, bind_Ok, (vib_to_sys_operator_Ok vh s H_vib n Hn), bind_Ok.
  fold v. rewrite HAB, bind_Ok, HHev, bind_Ok. exact HM.
Qed.

Lemma sample_ladder_pair (l : nat) : ladder_pair (collab := sample_collaborators) l.
Proof.
  do 2 eexists. split; [reflexivity|]. split; [reflexivity|].
  split; [reflexivity|]. split; [reflexivity|].
  intros i j Hi Hj.
  rewrite !item_tabulate by now apply in_bounds_2d_intro.
  unfold ix0, ix1. simpl. now rewrite (delta_sym (S i) j).
Qed.

Lemma vibronic_H_hermitian_witness :
  exists M,
    VH.H (collab := sample_collaborators)
      (sample_vibronic sample_electronic_bath) "e" = Ok M /\
    symmetric M 4.
Proof.
  apply (vibronic_H_hermitian sample_collaborators
           (sample_vibronic sample_electronic_bath) "e" sample_H_1exc 2 2).
  - reflexivity.
  - apply sample_H_1exc_symmetric.
  - reflexivity.
  - intros k Hk.
    destruct (number_operator_e_entries (collab := sample_collaborators)
                sample_electronic_bath 2 k (fun M => eq_refl) eq_refl Hk)
      as (A & HA & HsA & HitemA).
    exists A. split; [assumption|]. split; [assumption|].
    intros i j Hi Hj. rewrite !HitemA by assumption.
    destruct (Nat.eq_dec i j) as [->|Hne]; [reflexivity|].
    rewrite (delta_neq i j), (delta_neq j i) by auto. ring.
  - intros l _. apply sample_ladder_pair.
  - reflexivity.
Defined.

(* ================================================================== *)
(** * A 1-excitation matrix that is not square *)
(* ================================================================== *)

(** The shape of [H_1exc] is not checked at construction; the rotating
    frame is where a matrix that is not square fails: with [n] rows and
    [m] columns, [m] different from [n] and neither of them 1, the
    subtraction of the [n] by [n] identity raises a [ValueError]. *)
Theorem in_rotating_frame_rejects_non_square :
  forall (collab : Collaborators) (h : EH.t) (n m : nat) (f : R),
    shape (EH.H_1exc h) = [n; m] ->
    m <> n -> m <> 1 -> n <> 1 ->
    EH.in_rotating_frame h (Some f) = Raise ValueError.
Proof.
  intros collab h n m f Hs Hmn Hm1 Hn1.
  unfold EH.in_rotating_frame. rewrite bind_Ok. unfold np_len. rewrite Hs, bind_Ok.
  unfold np_sub, np_binop, broadcast_shapes. rewrite Hs. simpl.
  rewrite Nat.eqb_refl.
  destruct (Nat.eqb_spec m n) as [|_]; [contradiction|].
  destruct (Nat.eqb_spec m 1) as [|_]; [contradiction|].
  destruct (Nat.eqb_spec n 1) as [|_]; [contradiction|].
  reflexivity.
Qed.

Lemma in_rotating_frame_rejects_non_square_witness :
  EH.in_rotating_frame (collab := sample_collaborators)
    (EH.init (mk_ndarray [2; 3] [0; 1; 0; 1; 0; 0]%R) 0 None None 100) (Some 5%R)
  = Raise ValueError.
Proof.
  apply (in_rotating_frame_rejects_non_square sample_collaborators
           (EH.init (mk_ndarray [2; 3] [0; 1; 0; 1; 0; 0]%R) 0 None None 100)
           2 3 5%R); [reflexivity | lia | lia | lia].
Defined.
